(** * svg_dark_mode: a shallow embedding of [svg_dark_mode.py]

    The Python module rewrites SVG text: it inverts fill colours, adds a
    [fill-dark] companion to every [fill] attribute and filters the
    [<style>] blocks of the document.  The text is never parsed; it is
    rewritten with three regular expressions.

    Modelling choices, shared by the whole development:
    - a Python [str] is a [list ascii]; a character is a code point below
      256 (the Latin-1 range), on which [str.lower], the class [\s] of
      [re] and the white space skipped by [int] are the finite tables
      written out below;
    - a call that can raise returns a [result]; [Raise e] is the exception
      leaving the function;
    - [re.findall] and [re.sub] are run by a small backtracking matcher
      over the fragment of [re] syntax that the module uses;
    - the [print] calls are diagnostic output and are left out. *)

From Stdlib Require Import String Ascii List ZArith Lia Bool Arith.
From Stdlib Require Import DecimalString.
Import ListNotations.

Open Scope char_scope.
Open Scope list_scope.
Open Scope nat_scope.

(** ** Strings *)

Definition str := list ascii.

(** [L "text"] is the Python literal ['text']. *)
Definition L (s : string) : str := list_ascii_of_string s.

Definition code (c : ascii) : nat := nat_of_ascii c.

Definition in_range (lo hi : nat) (c : ascii) : bool :=
  (lo <=? code c) && (code c <=? hi).

Definition str_eqb (a b : str) : bool :=
  if list_eq_dec ascii_dec a b then true else false.

(** [s.startswith(p)] *)
Fixpoint startswith (p s : str) : bool :=
  match p, s with
  | [], _ => true
  | _ :: _, [] => false
  | a :: p', b :: s' => Ascii.eqb a b && startswith p' s'
  end.

(** [p in s] for strings: [p] occurs in [s] as a substring. *)
Fixpoint contains (s p : str) : bool :=
  startswith p s ||
  match s with
  | [] => false
  | _ :: s' => contains s' p
  end.

(** [s.find(p)] for a one-character [p]: the index of the first occurrence,
    or [-1]. *)
Fixpoint find_char (c : ascii) (s : str) : Z :=
  match s with
  | [] => (-1)%Z
  | a :: s' =>
      if Ascii.eqb a c then 0%Z
      else let r := find_char c s' in
           if (r <? 0)%Z then (-1)%Z else (r + 1)%Z
  end.

(** [s.lstrip(c)] for a one-character set. *)
Fixpoint lstrip (c : ascii) (s : str) : str :=
  match s with
  | a :: s' => if Ascii.eqb a c then lstrip c s' else s
  | [] => []
  end.

(** [sep.join(parts)] *)
Fixpoint join (sep : str) (parts : list str) : str :=
  match parts with
  | [] => []
  | [p] => p
  | p :: rest => p ++ sep ++ join sep rest
  end.

(** [str.lower] on one code point below 256: [A-Z] and the Latin-1 capitals
    [0xC0-0xDE] other than the multiplication sign [0xD7] move up by 32. *)
Definition lower_char (c : ascii) : ascii :=
  if in_range 65 90 c
     || (in_range 192 222 c && negb (code c =? 215))
  then ascii_of_nat (code c + 32)
  else c.

Definition lower (s : str) : str := map lower_char s.

(** The slice [s[i:j]] for [0 <= i <= j]. *)
Definition slice (i j : nat) (s : str) : str := firstn (j - i) (skipn i s).

(** ** Exceptions *)

Inductive exn : Type :=
  | ValueError (msg : string)
  | IOError
  | UnicodeDecodeError.

Inductive result (A : Type) : Type :=
  | Ok (a : A)
  | Raise (e : exn).
Arguments Ok {A} a.
Arguments Raise {A} e.

Definition bind {A B : Type} (r : result A) (k : A -> result B) : result B :=
  match r with
  | Ok a => k a
  | Raise e => Raise e
  end.

Notation "x <- r ;; k" := (bind r (fun x => k))
  (at level 61, r at next level, right associativity).

Definition is_ok {A : Type} (r : result A) : bool :=
  match r with Ok _ => true | Raise _ => false end.

(** ** [int(text, 16)] *)

(** White space that [int] skips at both ends of its argument. *)
Definition int_space (c : ascii) : bool :=
  in_range 9 13 c || (code c =? 32) || (code c =? 133) || (code c =? 160).

Definition hex_value (c : ascii) : option Z :=
  if in_range 48 57 c then Some (Z.of_nat (code c - 48))
  else if in_range 97 102 c then Some (Z.of_nat (code c - 87))
  else if in_range 65 70 c then Some (Z.of_nat (code c - 55))
  else None.

Definition is_hex (c : ascii) : bool :=
  match hex_value c with Some _ => true | None => false end.

(** The digits of the literal, most significant first; one underscore may
    stand between two digits.  [after_digit] tells whether the previous
    character was a digit. *)
Fixpoint hex_digits (after_digit : bool) (acc : Z) (s : str) : option Z :=
  match s with
  | [] => if after_digit then Some acc else None
  | c :: s' =>
      match hex_value c with
      | Some d => hex_digits true (16 * acc + d) s'
      | None =>
          if Ascii.eqb c "_" && after_digit
          then match s' with
               | [] => None
               | c' :: _ => if is_hex c' then hex_digits false acc s' else None
               end
          else None
      end
  end.

Fixpoint drop_while (f : ascii -> bool) (s : str) : str :=
  match s with
  | c :: s' => if f c then drop_while f s' else s
  | [] => []
  end.

Definition strip_int_space (s : str) : str :=
  rev (drop_while int_space (rev (drop_while int_space s))).

(** The [ValueError] of [int]; Python appends a colon and the literal
    in quotes to this message, which is left out here. *)
Definition invalid_literal : exn :=
  ValueError "invalid literal for int() with base 16".

Definition int16 (s : str) : result Z :=
  let t := strip_int_space s in
  let '(neg, t1) :=
    match t with
    | "+" :: r => (false, r)
    | "-" :: r => (true, r)
    | _ => (false, t)
    end in
  let t2 :=
    match t1 with
    | "0" :: x :: r =>
        if Ascii.eqb x "x" || Ascii.eqb x "X"
        then match r with "_" :: r' => r' | _ => r end
        else t1
    | _ => t1
    end in
  match hex_digits false 0 t2 with
  | Some v => Ok (if neg then (- v)%Z else v)
  | None => Raise invalid_literal
  end.

(** ** ['{:02x}'.format(n)] *)

Definition hex_digit_char (d : Z) : ascii :=
  if (d <? 10)%Z then ascii_of_nat (Z.to_nat d + 48)
  else ascii_of_nat (Z.to_nat d + 87).

Fixpoint to_hex_fuel (fuel : nat) (n : Z) (acc : str) : str :=
  match fuel with
  | O => acc
  | S fuel' =>
      let acc' := hex_digit_char (n mod 16) :: acc in
      if (n <? 16)%Z then acc' else to_hex_fuel fuel' (n / 16) acc'
  end.

(** Lower-case hexadecimal digits of [n >= 0], without padding. *)
Definition to_hex (n : Z) : str := to_hex_fuel (S (Z.to_nat (Z.log2 n))) n [].

Definition format_02x (n : Z) : str :=
  if (n <? 0)%Z then "-" :: to_hex (- n)
  else let h := to_hex n in
       match h with
       | [_] => "0" :: h
       | _ => h
       end.

(** ** Colour inversion *)

Definition rgb : Type := (Z * Z * Z)%type.

Definition hex_to_rgb (hex_color : str) : result rgb :=
  let hex_color := lstrip "#" hex_color in
  r <- int16 (slice 0 2 hex_color) ;;
  g <- int16 (slice 2 4 hex_color) ;;
  b <- int16 (slice 4 6 hex_color) ;;
  Ok (r, g, b).

Definition rgb_to_hex (c : rgb) : str :=
  let '(r, g, b) := c in
  "#" :: format_02x r ++ format_02x g ++ format_02x b.

(** The dictionary [color_map], in insertion order. *)
Definition color_map : list (str * str) :=
  [ (L "black", L "white"); (L "white", L "black") ].

Fixpoint lookup (k : str) (m : list (str * str)) : option str :=
  match m with
  | [] => None
  | (k', v) :: m' => if str_eqb k k' then Some v else lookup k m'
  end.

Definition invert_color (color : str) : result str :=
  match lookup (lower color) color_map with
  | Some name => Ok name
  | None =>
      if startswith (L "#") color then
        c <- hex_to_rgb color ;;
        let '(r, g, b) := c in
        Ok (rgb_to_hex ((255 - r)%Z, (255 - g)%Z, (255 - b)%Z))
      else Ok color
  end.

(** ** The fragment of [re] used by the module *)

(** A pattern.  Repetition is only ever applied to a character class, which
    is all the module's patterns need: [Many true f] is [[f]*],
    [Many false f] is the lazy [[f]*?].  [Group] is the capturing group 1
    and [NotAhead] the negative lookahead [(?!...)]. *)
Inductive regex : Type :=
  | Chars (accept : ascii -> bool)
  | Text (t : str)
  | Seq (a b : regex)
  | Many (greedy : bool) (accept : ascii -> bool)
  | Group (a : regex)
  | NotAhead (a : regex).

(** Backtracking over the number of repetitions: the greedy form tries the
    longest run first, the lazy form the shortest; [k] is the rest of the
    pattern. *)
Fixpoint many {M : Type} (greedy : bool) (accept : ascii -> bool) (s : str)
    (k : str -> option M) : option M :=
  match s with
  | [] => k []
  | c :: s' =>
      if greedy then
        if accept c then
          match many greedy accept s' k with
          | Some m => Some m
          | None => k s
          end
        else k s
      else
        match k s with
        | Some m => Some m
        | None => if accept c then many greedy accept s' k else None
        end
  end.

(** [run r M s g k] matches [r] at the front of [s]; [g] is what group 1
    holds so far and [k] continues with the unread text.  The first
    successful alternative wins, as in a backtracking engine. *)
Fixpoint run (r : regex) (M : Type) (s : str) (g : option str)
    (k : str -> option str -> option M) {struct r} : option M :=
  match r with
  | Chars accept =>
      match s with
      | c :: s' => if accept c then k s' g else None
      | [] => None
      end
  | Text t => if startswith t s then k (skipn (length t) s) g else None
  | Seq a b => run a M s g (fun s' g' => run b M s' g' k)
  | Many greedy accept => many greedy accept s (fun s' => k s' g)
  | Group a =>
      run a M s g
        (fun s' _ => k s' (Some (firstn (length s - length s') s)))
  | NotAhead a =>
      match run a unit s g (fun _ _ => Some tt) with
      | Some _ => None
      | None => k s g
      end
  end.

(** A match object: [group(0)] and [group(1)]. *)
Record re_match : Type := { group0 : str; group1 : str }.

(** [pattern.match(s)]: the match at the front of [s] together with the
    text after it. *)
Definition match_at (r : regex) (s : str) : option (re_match * str) :=
  match run r _ s None (fun s' g => Some (g, s')) with
  | Some (g, s') =>
      Some ({| group0 := firstn (length s - length s') s;
               group1 := match g with Some t => t | None => [] end |}, s')
  | None => None
  end.

(** The left-to-right scan shared by [re.findall] and [re.sub]: the text is
    cut into the characters outside every match and the non-overlapping
    matches, leftmost first.  [skip] counts the characters of the current
    match still to be passed over.  Every pattern of the module starts with
    a literal, so a match is never empty; an empty match is treated as no
    match. *)
Fixpoint scan (r : regex) (skip : nat) (s : str) : list (ascii + re_match) :=
  match s with
  | [] => []
  | c :: s' =>
      match skip with
      | S n => scan r n s'
      | O =>
          match match_at r s with
          | Some (m, _) =>
              match length (group0 m) with
              | O => inl c :: scan r 0 s'
              | S n => inr m :: scan r n s'
              end
          | None => inl c :: scan r 0 s'
          end
      end
  end.

(** [re.findall(r, s)] for a pattern with one group: the list of
    [group(1)]. *)
Definition findall (r : regex) (s : str) : list str :=
  flat_map (fun p => match p with inl _ => [] | inr m => [group1 m] end)
           (scan r 0 s).

(** [re.sub(r, repl, s)] for a callable [repl], which may raise. *)
Fixpoint sub_pieces (repl : re_match -> result str)
    (pieces : list (ascii + re_match)) : result str :=
  match pieces with
  | [] => Ok []
  | inl c :: rest => tail <- sub_pieces repl rest ;; Ok (c :: tail)
  | inr m :: rest =>
      t <- repl m ;;
      tail <- sub_pieces repl rest ;;
      Ok (t ++ tail)
  end.

Definition sub_with (r : regex) (repl : re_match -> result str) (s : str)
  : result str :=
  sub_pieces repl (scan r 0 s).

(** [re.sub(r, '', s)] *)
Definition remove_all (r : regex) (s : str) : str :=
  flat_map (fun p => match p with inl c => [c] | inr _ => [] end)
           (scan r 0 s).

(** ** The patterns of [add_dark_mode_attributes] *)

Definition dquote : ascii := ascii_of_nat 34.

Definition any_char (c : ascii) : bool := true.

Definition not_quote (c : ascii) : bool := negb (Ascii.eqb c dquote).

(** The class [\s] of a [str] pattern, below 256. *)
Definition space (c : ascii) : bool :=
  in_range 9 13 c || in_range 28 32 c || (code c =? 133) || (code c =? 160).

(** [r'<style>(.*?)</style>'] with [re.DOTALL] *)
Definition style_pattern : regex :=
  Seq (Text (L "<style>")) (Seq (Group (Many false any_char))
                                (Text (L "</style>"))).

(** The patterns [fill-dark=Q[^Q]*Q] and [fill-light=Q[^Q]*Q], where [Q]
    stands for the double quote. *)
Definition attr_pattern (name : str) : regex :=
  Seq (Text (name ++ [ "="; dquote ]))
      (Seq (Many true not_quote) (Text [dquote])).

Definition fill_dark_pattern : regex := attr_pattern (L "fill-dark").
Definition fill_light_pattern : regex := attr_pattern (L "fill-light").

(** The pattern [fill=Q(V)Q(?!\s+fill-dark)], where the group [V] is
    [[^Q]*]. *)
Definition companion_ahead : regex :=
  Seq (Chars space) (Seq (Many true space) (Text (L "fill-dark"))).

Definition fill_pattern : regex :=
  Seq (Text (L "fill=" ++ [dquote]))
      (Seq (Group (Many true not_quote))
           (Seq (Text [dquote]) (NotAhead companion_ahead))).

(** ** The pipeline *)

Definition keywords : list str := [ L "@media"; L "fill:"; L "dark" ].

(** [any(keyword in style.lower() for keyword in [...])] *)
Definition disqualified (style : str) : bool :=
  existsb (fun keyword => contains (lower style) keyword) keywords.

(** The local function [replace_fill]. *)
Definition replace_fill (m : re_match) : result str :=
  let fill := group1 m in
  dark_fill <- invert_color fill ;;
  Ok (L "fill=" ++ [dquote] ++ fill ++ [dquote]
        ++ L " fill-dark=" ++ [dquote] ++ dark_fill ++ [dquote]).

Definition style_block (preserved_styles : list str) : str :=
  L "<style>" ++ join (L " ") preserved_styles ++ L "</style>".

(** The last step: the preserved styles go in after the first [>]. *)
Definition reinsert (preserved_styles : list str) (content : str) : str :=
  match preserved_styles with
  | [] => content
  | _ :: _ =>
      let svg_end := find_char ">" content in
      let cut := Z.to_nat (svg_end + 1) in
      firstn cut content ++ style_block preserved_styles ++ skipn cut content
  end.

Definition preserved (svg_content : str) : list str :=
  filter (fun style => negb (disqualified style))
         (findall style_pattern svg_content).

(** The text after the styles and the earlier companions are removed. *)
Definition stripped (svg_content : str) : str :=
  let content := remove_all style_pattern svg_content in
  let content := remove_all fill_dark_pattern content in
  remove_all fill_light_pattern content.

Definition rewrite_fills (content : str) : result str :=
  sub_with fill_pattern replace_fill content.

(** [add_dark_mode_attributes], from the style pattern to the [return]:
    the text that the function computes.  The [print] calls before and
    after write the first 200 characters of the input and of the result
    to the standard output; they raise when that stream cannot take the
    text, [UnicodeEncodeError] for a character it cannot encode, and are
    no part of this definition. *)
Definition add_dark_mode_attributes (svg_content : str) : result str :=
  let preserved_styles := preserved svg_content in
  content <- rewrite_fills (stripped svg_content) ;;
  Ok (reinsert preserved_styles content).

(** ** The batch driver *)

(** [s.endswith(suffix)] *)
Definition endswith (suffix s : str) : bool :=
  startswith (rev suffix) (rev s).

(** [str(n)] for a length. *)
Definition decimal (n : nat) : string :=
  NilEmpty.string_of_uint (Nat.to_uint n).

(** What the file system answers to the calls of the driver: whether the
    source path is a directory, [os.makedirs] on the destination,
    [os.listdir] on the source, reading the source file of a given name as
    UTF-8 text and writing a text to the destination file of that name. *)
Record world : Type := {
  isdir : bool;
  makedirs : result unit;
  listdir : result (list str);
  read_text : str -> result str;
  write_text : str -> str -> result unit
}.

(** What happens to the files, in order: [process_svg_file] is called on
    a source file, a destination file is written. *)
Inductive event : Type :=
  | Started (filename : str)
  | Written (filename content : str).

Definition log : Type := list event.

(** [process_svg_file]: both handlers print and raise again, so the
    exception of the body is the exception of the call. *)
Definition process_svg_file (w : world) (filename : str) (l : log)
  : log * result unit :=
  let l := l ++ [Started filename] in
  match read_text w filename with
  | Raise e => (l, Raise e)
  | Ok svg =>
      match add_dark_mode_attributes svg with
      | Raise e => (l, Raise e)
      | Ok modified_svg =>
          match write_text w filename modified_svg with
          | Raise e => (l, Raise e)
          | Ok _ => (l ++ [Written filename modified_svg], Ok tt)
          end
      end
  end.

(** The classes named by [except (IOError, UnicodeDecodeError)]. *)
Definition caught (e : exn) : bool :=
  match e with
  | IOError | UnicodeDecodeError => true
  | ValueError _ => false
  end.

(** The loop of [process_folder] over the names of the directory;
    [errors] is the list of the same name. *)
Fixpoint batch (w : world) (names : list str) (l : log)
    (errors : list (str * exn)) : log * result (list (str * exn)) :=
  match names with
  | [] => (l, Ok errors)
  | filename :: rest =>
      if endswith (L ".svg") filename then
        let '(l1, r) := process_svg_file w filename l in
        match r with
        | Ok _ => batch w rest l1 errors
        | Raise e =>
            if caught e then batch w rest l1 (errors ++ [(filename, e)])
            else (l1, Raise e)
        end
      else batch w rest l errors
  end.

Definition not_a_directory : exn :=
  ValueError "Source path is not a valid directory".

Definition failed_to_process (n : nat) : exn :=
  ValueError ("Failed to process " ++ decimal n ++ " files")%string.

Definition process_folder (w : world) (l : log) : log * result unit :=
  if negb (isdir w) then (l, Raise not_a_directory)
  else
    match makedirs w with
    | Raise e => (l, Raise e)
    | Ok _ =>
        match listdir w with
        | Raise e => (l, Raise e)
        | Ok names =>
            let '(l1, r) := batch w names l [] in
            match r with
            | Raise e => (l1, Raise e)
            | Ok [] => (l1, Ok tt)
            | Ok ((_ :: _) as errors) =>
                (l1, Raise (failed_to_process (length errors)))
            end
        end
    end.

(** What [main] prints last. *)
Inductive report : Type :=
  | Usage
  | All_processed
  | Error_line (e : exn)
  | Unexpected_line (e : exn).

(** [except ValueError] also takes [UnicodeDecodeError], a subclass of
    it; an [IOError] falls to [except Exception]. *)
Definition is_value_error (e : exn) : bool :=
  match e with
  | ValueError _ | UnicodeDecodeError => true
  | IOError => false
  end.

(** [main] on the argument vector [argv], [sys.argv] with the name of the
    script in front; [w] holds the answers of the file system for the two
    folders named in it.  The result is the log, the last line printed and
    the exit status. *)
Definition main (argv : list str) (w : world) (l : log)
  : log * report * nat :=
  if negb (length argv =? 3) then (l, Usage, 1)
  else
    let '(l1, r) := process_folder w l in
    match r with
    | Ok _ => (l1, All_processed, 0)
    | Raise e =>
        (l1, if is_value_error e then Error_line e else Unexpected_line e, 1)
    end.

(** * Vocabulary of the statements

    Definitions that the statements below use to speak about the code;
    none of them is part of the module. *)

(** [Q "text"] is [L "text"] with every ['] read as a double quote, to
    write the examples. *)
Definition Q (s : string) : str :=
  map (fun c => if Ascii.eqb c "'" then dquote else c) (L s).

Definition hex_chars : str := L "0123456789abcdefABCDEF".

Definition digit_value (c : ascii) : Z :=
  match hex_value c with Some d => d | None => 0%Z end.

(** The value of the two-digit component written [a b]. *)
Definition component (a b : ascii) : Z := (16 * digit_value a + digit_value b)%Z.

(** The digit that takes the place of [c] when its component is inverted. *)
Definition flip_digit (c : ascii) : ascii :=
  hex_digit_char (15 - digit_value c).

Definition Z_result_eqb (r : result Z) (v : Z) : bool :=
  match r with Ok w => (w =? v)%Z | Raise _ => false end.

Definition inverted (a b c d e f : ascii) : rgb :=
  ((255 - component a b)%Z, (255 - component c d)%Z, (255 - component e f)%Z).

(** The value [c] is [#] followed by exactly six hexadecimal digits. *)
Definition is_hex_color (c : str) : bool :=
  match c with
  | h :: digits =>
      Ascii.eqb h "#" && (length digits =? 6) && forallb is_hex digits
  | [] => false
  end.

(** The value begins with [#] and the six characters after it are
    hexadecimal digits; more text may follow. *)
Definition carries_six_hex (color : str) : bool :=
  match color with
  | h :: a :: b :: c :: d :: e :: f :: _ =>
      Ascii.eqb h "#" && forallb is_hex [a; b; c; d; e; f]
  | _ => false
  end.

(** invert_color applied twice *)
Definition invert_twice (color : str) : result str :=
  once <- invert_color color ;; invert_color once.

(** [split_at t s] cuts [s] at the first occurrence of [t]: the text before
    it and the text after it. *)
Fixpoint split_at (t s : str) : option (str * str) :=
  if startswith t s then Some ([], skipn (length t) s)
  else match s with
       | [] => None
       | c :: s' =>
           match split_at t s' with
           | Some (a, b) => Some (c :: a, b)
           | None => None
           end
       end.

(** The lookahead: white space, at least one character of it, and then
    the text [fill-dark]. *)
Definition companion (s : str) : bool :=
  match s with
  | c :: r => space c && startswith (L "fill-dark") (drop_while space r)
  | [] => false
  end.

(** What [match_at] finds for each pattern, read off the text. *)
Definition style_match (s : str) : option (re_match * str) :=
  if startswith (L "<style>") s then
    match split_at (L "</style>") (skipn 7 s) with
    | Some (inner, rest) =>
        Some ({| group0 := L "<style>" ++ inner ++ L "</style>";
                 group1 := inner |}, rest)
    | None => None
    end
  else None.

Definition attr_match (name : str) (s : str) : option (re_match * str) :=
  let opening := name ++ [ "="; dquote ] in
  if startswith opening s then
    match split_at [dquote] (skipn (length opening) s) with
    | Some (v, rest) =>
        Some ({| group0 := opening ++ v ++ [dquote]; group1 := [] |}, rest)
    | None => None
    end
  else None.

Definition fill_open : str := L "fill=" ++ [dquote].

Definition fill_match (s : str) : option (re_match * str) :=
  if startswith fill_open s then
    match split_at [dquote] (skipn 6 s) with
    | Some (v, rest) =>
        if companion rest then None
        else Some ({| group0 := fill_open ++ v ++ [dquote];
                      group1 := v |}, rest)
    | None => None
    end
  else None.

Definition is_match (p : ascii + re_match) : bool :=
  match p with inr _ => true | inl _ => false end.

(** [re.search(r, s) is not None] *)
Definition search (r : regex) (s : str) : bool :=
  existsb is_match (scan r 0 s).

(** The attribute text [name=Qvalue Q], [Q] the double quote. *)
Definition attribute (name value : str) : str :=
  name ++ "=" :: dquote :: value ++ [dquote].

(** The files on which [process_svg_file] was called, in order. *)
Definition attempted (l : log) : list str :=
  flat_map (fun ev => match ev with
                      | Started f => [f]
                      | Written _ _ => []
                      end) l.

(** The outcome of one file, whatever happened before. *)
Definition outcome (w : world) (filename : str) : result unit :=
  snd (process_svg_file w filename []).

Definition svg_files (names : list str) : list str :=
  filter (endswith (L ".svg")) names.

Definition failures (w : world) (names : list str) : list str :=
  filter (fun f => negb (is_ok (outcome w f))) (svg_files names).

(** No file of the list fails outside the two caught classes. *)
Definition only_caught (w : world) (names : list str) : Prop :=
  forall f e, In f (svg_files names) -> outcome w f = Raise e -> caught e = true.

(** A directory with two good files, one that is not UTF-8 and one that is
    not an SVG file. *)
Definition sample_world : world :=
  {| isdir := true;
     makedirs := Ok tt;
     listdir := Ok [L "a.svg"; L "b.svg"; L "notes.txt"; L "c.svg"];
     read_text := fun f =>
       if str_eqb f (L "b.svg") then Raise UnicodeDecodeError
       else Ok (Q "<path fill='black'/>");
     write_text := fun _ _ => Ok tt |}.

(** [format_02x] writes [n] as two lower-case digits that [int] reads
    back. *)
Definition byte_ok (n : nat) : bool :=
  match format_02x (Z.of_nat n) with
  | [a; b] =>
      is_hex a && is_hex b
      && Ascii.eqb (lower_char a) a && Ascii.eqb (lower_char b) b
      && Z_result_eqb (int16 [a; b]) (Z.of_nat n)
  | _ => false
  end.

(** The three components are between 0 and 255. *)
Definition in_byte (c : rgb) : Prop :=
  let '(r, g, b) := c in
  (0 <= r <= 255)%Z /\ (0 <= g <= 255)%Z /\ (0 <= b <= 255)%Z.

(** The destination files that were written, with their text, in order. *)
Definition written (l : log) : list (str * str) :=
  flat_map (fun ev => match ev with
                      | Started _ => []
                      | Written f c => [(f, c)]
                      end) l.

(** The [.svg] files of the listing whose processing does not raise. *)
Definition successes (w : world) (names : list str) : list str :=
  filter (fun f => is_ok (outcome w f)) (svg_files names).

(** A directory where the second file holds a malformed colour. *)
Definition broken_world : world :=
  {| isdir := true;
     makedirs := Ok tt;
     listdir := Ok [L "a.svg"; L "b.svg"; L "c.svg"];
     read_text := fun f =>
       if str_eqb f (L "b.svg") then Ok (Q "<path fill='#FFF'/>")
       else Ok (Q "<path fill='black'/>");
     write_text := fun _ _ => Ok tt |}.

(** [subseq a b]: [a] is [b] with some characters left out. *)
Inductive subseq : str -> str -> Prop :=
  | subseq_nil : subseq [] []
  | subseq_keep (c : ascii) (a b : str) : subseq a b -> subseq (c :: a) (c :: b)
  | subseq_skip (c : ascii) (a b : str) : subseq a b -> subseq a (c :: b).

(** The text that the pieces of a scan stand for. *)
Definition source (pieces : list (ascii + re_match)) : str :=
  flat_map (fun p => match p with inl c => [c] | inr m => group0 m end) pieces.


(** A directory where the first file is not UTF-8 and the second holds a
    malformed colour. *)
Definition mixed_world : world :=
  {| isdir := true;
     makedirs := Ok tt;
     listdir := Ok [L "b.svg"; L "m.svg"; L "c.svg"];
     read_text := fun f =>
       if str_eqb f (L "b.svg") then Raise UnicodeDecodeError
       else if str_eqb f (L "m.svg") then Ok (Q "<path fill='#FFF'/>")
       else Ok (Q "<path fill='black'/>");
     write_text := fun _ _ => Ok tt |}.

(** * Properties *)

(** ** The model on sample inputs *)

Example invert_black : invert_color (L "Black") = Ok (L "white").
Proof. reflexivity. Qed.

Example invert_hex : invert_color (L "#12aBef") = Ok (L "#ed5410").
Proof. vm_compute. reflexivity. Qed.

Example invert_signed : invert_color (L "#-f-1+2") = Ok (L "#10e100fd").
Proof. vm_compute. reflexivity. Qed.

Example invert_short : invert_color (L "#FFF") = Raise invalid_literal.
Proof. vm_compute. reflexivity. Qed.

Example int16_samples :
  map (fun s => int16 (L s))
      ["0x_f"; "0x__f"; "+0xf"; "f_f"; "f__f"; "_f"; " 0xf "; "00"; "0_0";
       "+_f"; "0x"; "+-1"; "-f"; "f_"; ""; "+ "]%string
  = [Ok 15; Raise invalid_literal; Ok 15; Ok 255; Raise invalid_literal;
     Raise invalid_literal; Ok 15; Ok 0; Ok 0; Raise invalid_literal;
     Raise invalid_literal; Raise invalid_literal; Ok (-15);
     Raise invalid_literal; Raise invalid_literal; Raise invalid_literal]%Z.
Proof. vm_compute. reflexivity. Qed.

Example sample_world_result :
  snd (process_folder sample_world [])
  = Raise (ValueError "Failed to process 1 files").
Proof. vm_compute. reflexivity. Qed.

(** ** Basic facts about strings *)

Lemma str_eqb_eq (a b : str) : str_eqb a b = true <-> a = b.
Proof.
  unfold str_eqb. destruct (list_eq_dec ascii_dec a b); split; congruence.
Qed.

Lemma startswith_app (p s : str) : startswith p (p ++ s) = true.
Proof.
  induction p as [|a p IH]; simpl; [reflexivity|].
  now rewrite Ascii.eqb_refl.
Qed.

Lemma startswith_split (p s : str) :
  startswith p s = true -> s = p ++ skipn (length p) s.
Proof.
  revert s. induction p as [|a p IH]; intros [|b s] H; simpl in *;
    try reflexivity; try discriminate.
  apply andb_true_iff in H. destruct H as [Hab H].
  apply Ascii.eqb_eq in Hab. subst b. f_equal. now apply IH.
Qed.

Lemma startswith_prefix (p q s : str) :
  startswith (p ++ q) s = true -> startswith p s = true.
Proof.
  revert s. induction p as [|a p IH]; intros s H; [reflexivity|].
  destruct s as [|b s]; simpl in *; [discriminate|].
  apply andb_true_iff in H. destruct H as [-> H]. simpl. eauto.
Qed.

(** ** The colour inverter on hexadecimal digits *)

Lemma is_hex_mem (c : ascii) : is_hex c = existsb (Ascii.eqb c) hex_chars.
Proof. destruct c as [[] [] [] [] [] [] [] []]; reflexivity. Qed.

Lemma hex_forall (P : ascii -> bool) :
  forallb P hex_chars = true -> forall c, is_hex c = true -> P c = true.
Proof.
  intros HP c Hc. rewrite is_hex_mem in Hc.
  apply existsb_exists in Hc. destruct Hc as [x [Hx Hcx]].
  apply Ascii.eqb_eq in Hcx. subst x.
  rewrite forallb_forall in HP. now apply HP.
Qed.

Lemma hex_forall2 (P : ascii -> ascii -> bool) :
  forallb (fun a => forallb (P a) hex_chars) hex_chars = true ->
  forall a b, is_hex a = true -> is_hex b = true -> P a b = true.
Proof.
  intros HP a b Ha Hb.
  apply (hex_forall (P a)); [|exact Hb].
  now apply (hex_forall (fun a => forallb (P a) hex_chars)).
Qed.

Lemma int16_pair (a b : ascii) :
  is_hex a = true -> is_hex b = true -> int16 [a; b] = Ok (component a b).
Proof.
  intros Ha Hb.
  assert (H : Z_result_eqb (int16 [a; b]) (component a b) = true).
  { revert a b Ha Hb.
    apply (hex_forall2 (fun a b => Z_result_eqb (int16 [a; b]) (component a b))).
    vm_compute. reflexivity. }
  destruct (int16 [a; b]) as [w|e]; simpl in H; [|discriminate].
  apply Z.eqb_eq in H. now subst w.
Qed.

Lemma format_inverted (a b : ascii) :
  is_hex a = true -> is_hex b = true ->
  format_02x (255 - component a b) = [flip_digit a; flip_digit b].
Proof.
  intros Ha Hb. apply str_eqb_eq. revert a b Ha Hb.
  apply (hex_forall2 (fun a b => str_eqb (format_02x (255 - component a b))
                                         [flip_digit a; flip_digit b])).
  vm_compute. reflexivity.
Qed.

Lemma hex_not_hash (a : ascii) : is_hex a = true -> Ascii.eqb a "#" = false.
Proof.
  intro Ha.
  apply (hex_forall (fun a => negb (Ascii.eqb a "#"))) in Ha;
    [|reflexivity].
  now apply negb_true_iff in Ha.
Qed.

Lemma lookup_hash (s : str) : lookup (lower ("#" :: s)) color_map = None.
Proof.
  unfold color_map, lookup.
  destruct (str_eqb (lower ("#" :: s)) (L "black")) eqn:E1.
  { apply str_eqb_eq in E1. discriminate E1. }
  destruct (str_eqb (lower ("#" :: s)) (L "white")) eqn:E2.
  { apply str_eqb_eq in E2. discriminate E2. }
  reflexivity.
Qed.

(** Six hexadecimal digits after the [#] decide the result, whatever
    follows them. *)
Lemma invert_color_hex (a b c d e f : ascii) (extra : str) :
  forallb is_hex [a; b; c; d; e; f] = true ->
  invert_color ("#" :: a :: b :: c :: d :: e :: f :: extra)
  = Ok (rgb_to_hex (inverted a b c d e f)).
Proof.
  intro H. simpl in H.
  repeat (apply andb_true_iff in H; destruct H as [? H]).
  unfold invert_color. rewrite lookup_hash.
  change (startswith (L "#") ("#" :: a :: b :: c :: d :: e :: f :: extra))
    with true.
  cbv iota. unfold hex_to_rgb.
  change (lstrip "#" ("#" :: a :: b :: c :: d :: e :: f :: extra))
    with (lstrip "#" (a :: b :: c :: d :: e :: f :: extra)).
  assert (Hs : lstrip "#" (a :: b :: c :: d :: e :: f :: extra)
               = a :: b :: c :: d :: e :: f :: extra).
  { simpl. now rewrite (hex_not_hash a). }
  rewrite Hs.
  change (slice 0 2 (a :: b :: c :: d :: e :: f :: extra)) with [a; b].
  change (slice 2 4 (a :: b :: c :: d :: e :: f :: extra)) with [c; d].
  change (slice 4 6 (a :: b :: c :: d :: e :: f :: extra)) with [e; f].
  rewrite !int16_pair by assumption. reflexivity.
Qed.

Lemma rgb_to_hex_inverted (a b c d e f : ascii) :
  forallb is_hex [a; b; c; d; e; f] = true ->
  rgb_to_hex (inverted a b c d e f) = "#" :: map flip_digit [a; b; c; d; e; f].
Proof.
  intro H. simpl in H.
  repeat (apply andb_true_iff in H; destruct H as [? H]).
  unfold rgb_to_hex, inverted.
  rewrite !format_inverted by assumption. reflexivity.
Qed.

Lemma flip_digit_hex (c : ascii) :
  is_hex c = true -> is_hex (flip_digit c) = true.
Proof. revert c. apply (hex_forall (fun c => is_hex (flip_digit c))). reflexivity. Qed.

Lemma flip_digit_lower (c : ascii) :
  is_hex c = true -> lower_char (flip_digit c) = flip_digit c.
Proof.
  intro Hc. apply Ascii.eqb_eq. revert c Hc.
  apply (hex_forall (fun c => Ascii.eqb (lower_char (flip_digit c)) (flip_digit c))).
  reflexivity.
Qed.

Lemma flip_digit_twice (c : ascii) :
  is_hex c = true -> flip_digit (flip_digit c) = lower_char c.
Proof.
  intro Hc. apply Ascii.eqb_eq. revert c Hc.
  apply (hex_forall (fun c => Ascii.eqb (flip_digit (flip_digit c)) (lower_char c))).
  reflexivity.
Qed.

Lemma is_hex_color_inv (c : str) :
  is_hex_color c = true ->
  exists a b c' d e f,
    c = ["#"; a; b; c'; d; e; f] /\ forallb is_hex [a; b; c'; d; e; f] = true.
Proof.
  destruct c as [|h digits]; simpl; [discriminate|].
  intro H. apply andb_true_iff in H. destruct H as [H Hhex].
  apply andb_true_iff in H. destruct H as [Hh Hlen].
  apply Ascii.eqb_eq in Hh. subst h. apply Nat.eqb_eq in Hlen.
  destruct digits as [|a [|b [|c' [|d [|e [|f [|g rest]]]]]]];
    simpl in Hlen; try discriminate.
  now exists a, b, c', d, e, f.
Qed.


Lemma inverted_shape (a b c d e f : ascii) :
  forallb is_hex [a; b; c; d; e; f] = true ->
  let r := rgb_to_hex (inverted a b c d e f) in
  is_hex_color r = true /\ lower r = r.
Proof.
  intro H. rewrite (rgb_to_hex_inverted _ _ _ _ _ _ H).
  simpl in H. repeat (apply andb_true_iff in H; destruct H as [? H]).
  split.
  - simpl. now rewrite !flip_digit_hex.
  - unfold lower. simpl. now rewrite !flip_digit_lower.
Qed.

(** C9: when the value begins with [#] and the six characters after it
    are hexadecimal digits, [invert_color] returns a lower-case string of
    seven characters, [#] and six hexadecimal digits, which is the result
    for those six digits alone: whatever follows the sixth digit has no
    part in the result. *)
Theorem invert_color_ignores_extra (a b c d e f : ascii) (extra : str) :
  forallb is_hex [a; b; c; d; e; f] = true ->
  exists r,
    invert_color ("#" :: a :: b :: c :: d :: e :: f :: extra) = Ok r /\
    invert_color ["#"; a; b; c; d; e; f] = Ok r /\
    r = "#" :: format_02x (255 - component a b)
            ++ format_02x (255 - component c d)
            ++ format_02x (255 - component e f) /\
    length r = 7 /\ is_hex_color r = true /\ lower r = r.
Proof.
  intro H. exists (rgb_to_hex (inverted a b c d e f)).
  destruct (inverted_shape _ _ _ _ _ _ H) as [Hshape Hlow].
  repeat split.
  - now apply invert_color_hex.
  - now apply (invert_color_hex a b c d e f []).
  - now rewrite (rgb_to_hex_inverted _ _ _ _ _ _ H).
  - exact Hshape.
  - exact Hlow.
Qed.

Lemma invert_color_ignores_extra_witness :
  exists r,
    invert_color (L "#A1b2C3extra") = Ok r /\
    invert_color (L "#A1b2C3") = Ok r /\
    r = "#" :: format_02x (255 - component "A" "1")
            ++ format_02x (255 - component "b" "2")
            ++ format_02x (255 - component "C" "3") /\
    length r = 7 /\ is_hex_color r = true /\ lower r = r.
Proof.
  apply (invert_color_ignores_extra "A" "1" "b" "2" "C" "3" (L "extra")).
  reflexivity.
Defined.

(** C4, as stated, fails on upper-case digits: the second inversion writes
    them back in lower case. *)
Lemma invert_twice_upper_case :
  is_hex_color (L "#ABCDEF") = true /\
  invert_twice (L "#ABCDEF") = Ok (L "#abcdef") /\
  invert_twice (L "#ABCDEF") <> Ok (L "#ABCDEF").
Proof.
  split; [reflexivity|]. split; [vm_compute; reflexivity|].
  vm_compute. discriminate.
Qed.

(** C4, amended: inverting a valid [#RRGGBB] colour twice gives the colour
    back with its digits in lower case, hence the colour itself when it has
    no upper-case digit; [black] and [white] come back unchanged. *)
Theorem invert_twice_lower (color : str) :
  is_hex_color color = true \/ color = L "black" \/ color = L "white" ->
  invert_twice color = Ok (lower color) /\
  (lower color = color -> invert_twice color = Ok color).
Proof.
  intro H.
  assert (Hmain : invert_twice color = Ok (lower color)).
  { destruct H as [H | [-> | ->]]; [|reflexivity|reflexivity].
    destruct (is_hex_color_inv _ H) as (a & b & c & d & e & f & -> & Hhex).
    unfold invert_twice.
    rewrite (invert_color_hex a b c d e f [] Hhex).
    rewrite (rgb_to_hex_inverted _ _ _ _ _ _ Hhex).
    simpl in Hhex.
    repeat (apply andb_true_iff in Hhex; destruct Hhex as [? Hhex]).
    cbn [bind map].
    rewrite invert_color_hex
      by (simpl; now rewrite !flip_digit_hex).
    rewrite rgb_to_hex_inverted
      by (simpl; now rewrite !flip_digit_hex).
    cbn [map lower]. now rewrite !flip_digit_twice. }
  split; [exact Hmain|]. intro Hl. now rewrite Hmain, Hl.
Qed.

Lemma invert_twice_lower_witness :
  invert_twice (L "#0a1B2c") = Ok (lower (L "#0a1B2c")) /\
  (lower (L "#0a1B2c") = L "#0a1B2c" -> invert_twice (L "#0a1B2c") = Ok (L "#0a1B2c")).
Proof.
  apply (invert_twice_lower (L "#0a1B2c")). left. reflexivity.
Defined.

(** C3: a value that is no name of the table and begins with [#] without
    six hexadecimal digits is not returned unchanged: it goes to
    [hex_to_rgb], and the [ValueError] of [int] leaves [invert_color]. *)
Lemma invert_color_short_hex :
  lookup (lower (L "#FFF")) color_map = None /\
  carries_six_hex (L "#FFF") = false /\
  invert_color (L "#FFF") = Raise invalid_literal /\
  invert_color (L "#FFF") <> Ok (L "#FFF").
Proof.
  split; [reflexivity|]. split; [reflexivity|].
  split; [vm_compute; reflexivity|]. vm_compute. discriminate.
Qed.



(** ** The matcher on the module's patterns *)

Lemma split_at_eq (t s a b : str) :
  split_at t s = Some (a, b) -> s = a ++ t ++ b.
Proof.
  revert a b. induction s as [|c s IH]; intros a b H; simpl in H.
  - destruct (startswith t []) eqn:E; [|discriminate].
    injection H as <- <-. now apply startswith_split.
  - destruct (startswith t (c :: s)) eqn:E.
    + injection H as <- <-. now apply startswith_split.
    + destruct (split_at t s) as [[a' b']|]; [|discriminate].
      injection H as <- <-. simpl. f_equal. now apply IH.
Qed.

Lemma firstn_prefix (a b : str) :
  firstn (length (a ++ b) - length b) (a ++ b) = a.
Proof.
  rewrite length_app, Nat.add_sub. now rewrite firstn_app, Nat.sub_diag, firstn_all, app_nil_r.
Qed.

(** The lazy [.*?] stops at the first place where the text [t] that
    follows it in the pattern is found. *)
Lemma many_lazy_text {M : Type} (t s : str) (F : str -> M) :
  many false any_char s
       (fun s' => if startswith t s' then Some (F s') else None)
  = match split_at t s with
    | Some (_, b) => Some (F (t ++ b))
    | None => None
    end.
Proof.
  induction s as [|c s IH]; simpl.
  - destruct (startswith t []) eqn:E; [|reflexivity].
    now rewrite <- (startswith_split _ _ E).
  - destruct (startswith t (c :: s)) eqn:E.
    + now rewrite <- (startswith_split _ _ E).
    + rewrite IH. now destruct (split_at t s) as [[a b]|].
Qed.

(** The greedy [[^Q]*] followed by the quote reads up to the next quote
    and nothing else: when the rest of the pattern fails there, no shorter
    run can succeed. *)
Lemma many_value {M : Type} (s : str) (K : str -> option M) :
  many true not_quote s
       (fun s' => if startswith [dquote] s' then K s' else None)
  = match split_at [dquote] s with
    | Some (_, rest) => K (dquote :: rest)
    | None => None
    end.
Proof.
  set (k := fun s' => if startswith [dquote] s' then K s' else None).
  induction s as [|c s IH]; [reflexivity|].
  cbn [many split_at]. rewrite IH. unfold k at 1 2, not_quote at 1.
  cbn [startswith length skipn].
  rewrite andb_true_r, (Ascii.eqb_sym dquote c).
  destruct (Ascii.eqb c dquote) eqn:E; cbn [negb].
  - apply Ascii.eqb_eq in E. now subst c.
  - now destruct (split_at [dquote] s) as [[a b]|]; [destruct (K (dquote :: b))|].
Qed.

Lemma split_at_value (v rest : str) :
  forallb not_quote v = true ->
  split_at [dquote] (v ++ dquote :: rest) = Some (v, rest).
Proof.
  induction v as [|c v IH]; intro H.
  - cbn [app split_at startswith length skipn]. now rewrite Ascii.eqb_refl.
  - simpl in H. apply andb_true_iff in H. destruct H as [Hc Hv].
    cbn [app split_at startswith length skipn].
    unfold not_quote in Hc. apply negb_true_iff in Hc.
    rewrite andb_true_r, (Ascii.eqb_sym dquote c), Hc.
    now rewrite (IH Hv).
Qed.

Lemma space_not_f (c : ascii) (r : str) :
  space c = true -> startswith (L "fill-dark") (c :: r) = false.
Proof.
  intro H. cbn [L list_ascii_of_string startswith].
  destruct (Ascii.eqb "f" c) eqn:E; [|reflexivity].
  apply Ascii.eqb_eq in E. subst c. discriminate H.
Qed.

Lemma many_space (s : str) :
  many true space s
       (fun s' => if startswith (L "fill-dark") s' then Some tt else None)
  = if startswith (L "fill-dark") (drop_while space s) then Some tt else None.
Proof.
  induction s as [|c s IH]; [reflexivity|].
  cbn [many drop_while]. destruct (space c) eqn:E; [|reflexivity].
  rewrite IH, (space_not_f c s E).
  now destruct (startswith (L "fill-dark") (drop_while space s)).
Qed.

Lemma run_companion (s : str) (g : option str) :
  run companion_ahead unit s g (fun _ _ => Some tt)
  = if companion s then Some tt else None.
Proof.
  unfold companion_ahead. cbn [run].
  destruct s as [|c r]; [reflexivity|].
  cbn [companion]. destruct (space c); [|reflexivity].
  rewrite many_space. cbn [andb].
  now destruct (startswith (L "fill-dark") (drop_while space r)).
Qed.

Lemma length_suffix (a b : str) : length (a ++ b) - length b = length a.
Proof. rewrite length_app. lia. Qed.

Lemma match_at_style (s : str) : match_at style_pattern s = style_match s.
Proof.
  unfold match_at, style_match, style_pattern. cbn [run].
  destruct (startswith (L "<style>") s) eqn:E; [|reflexivity].
  change (length (L "<style>")) with 7.
  set (body := skipn 7 s).
  match goal with
  | |- context [many false any_char body ?K] =>
      assert (Hm : many false any_char body K
                   = match split_at (L "</style>") body with
                     | Some (_, b) =>
                         Some (Some (firstn (length body
                                             - length (L "</style>" ++ b)) body),
                               skipn (length (L "</style>")) (L "</style>" ++ b))
                     | None => None
                     end)
        by exact (many_lazy_text (L "</style>") body
                    (fun s' => (Some (firstn (length body - length s') body),
                                skipn (length (L "</style>")) s')))
  end.
  rewrite Hm. clear Hm.
  destruct (split_at (L "</style>") body) as [[inner rest]|] eqn:Es;
    [|reflexivity].
  pose proof (split_at_eq _ _ _ _ Es) as Hb.
  pose proof (startswith_split _ _ E) as Hs.
  change (skipn (length (L "<style>")) s) with body in Hs.
  rewrite skipn_app, skipn_all, Nat.sub_diag. cbn [app skipn].
  f_equal. f_equal. f_equal.
  - rewrite Hs at 2. rewrite Hs at 1. rewrite Hb.
    rewrite !app_assoc. rewrite length_suffix.
    now rewrite firstn_app, Nat.sub_diag, firstn_all, app_nil_r.
  - rewrite Hb at 2. rewrite Hb at 1. now rewrite firstn_prefix.
Qed.

Lemma match_at_attr (name s : str) :
  match_at (attr_pattern name) s = attr_match name s.
Proof.
  unfold match_at, attr_match, attr_pattern. cbn [run].
  set (opening := name ++ ["="; dquote]).
  destruct (startswith opening s) eqn:E; [|reflexivity].
  set (body := skipn (length opening) s).
  match goal with
  | |- context [many true not_quote body ?K] =>
      assert (Hm : many true not_quote body K
                   = match split_at [dquote] body with
                     | Some (_, rest) =>
                         Some (@None str,
                               skipn (length [dquote]) (dquote :: rest))
                     | None => None
                     end)
        by exact (many_value body
                    (fun s' => Some (@None str, skipn (length [dquote]) s')))
  end.
  rewrite Hm. clear Hm.
  destruct (split_at [dquote] body) as [[v rest]|] eqn:Es; [|reflexivity].
  pose proof (split_at_eq _ _ _ _ Es) as Hb.
  pose proof (startswith_split _ _ E) as Hs.
  change (skipn (length opening) s) with body in Hs.
  cbn [length skipn]. f_equal. f_equal. f_equal.
  rewrite Hs at 2. rewrite Hs at 1. rewrite Hb.
  change (v ++ [dquote] ++ rest) with (v ++ dquote :: rest).
  replace (opening ++ v ++ dquote :: rest)
    with ((opening ++ v ++ [dquote]) ++ rest)
    by (now rewrite <- !app_assoc).
  now rewrite firstn_prefix.
Qed.

Lemma match_at_fill (s : str) : match_at fill_pattern s = fill_match s.
Proof.
  unfold match_at, fill_match, fill_pattern. cbn [run].
  fold fill_open.
  destruct (startswith fill_open s) eqn:E; [|reflexivity].
  change (length fill_open) with 6.
  set (body := skipn 6 s).
  match goal with
  | |- context [many true not_quote body ?K] =>
      assert (Hm : many true not_quote body K
                   = match split_at [dquote] body with
                     | Some (_, rest) =>
                         if companion rest then None
                         else Some (Some (firstn (length body
                                                  - length (dquote :: rest)) body),
                                    rest)
                     | None => None
                     end)
  end.
  { etransitivity;
      [exact (many_value body
               (fun s' =>
                  match run companion_ahead unit (skipn (length [dquote]) s')
                            (Some (firstn (length body - length s') body))
                            (fun _ _ => Some tt) with
                  | Some _ => None
                  | None => Some (Some (firstn (length body - length s') body),
                                   skipn (length [dquote]) s')
                  end))|].
    cbv beta.
    destruct (split_at [dquote] body) as [[v rest]|]; [|reflexivity].
    cbn [length skipn]. rewrite run_companion.
    now destruct (companion rest). }
  rewrite Hm. clear Hm.
  destruct (split_at [dquote] body) as [[v rest]|] eqn:Es; [|reflexivity].
  destruct (companion rest); [reflexivity|].
  pose proof (split_at_eq _ _ _ _ Es) as Hb.
  pose proof (startswith_split _ _ E) as Hs.
  change (skipn (length fill_open) s) with body in Hs.
  f_equal. f_equal. f_equal.
  - rewrite Hs at 2. rewrite Hs at 1. rewrite Hb.
    change (v ++ [dquote] ++ rest) with (v ++ dquote :: rest).
    replace (fill_open ++ v ++ dquote :: rest)
      with ((fill_open ++ v ++ [dquote]) ++ rest)
      by (now rewrite <- !app_assoc).
    now rewrite firstn_prefix.
  - rewrite Hb at 2. rewrite Hb at 1.
    change ([dquote] ++ rest) with (dquote :: rest).
    now rewrite firstn_prefix.
Qed.

(** Every match of the four patterns is a front part of the text and is
    not empty, so the scan never meets an empty match. *)
Lemma match_is_front (r : regex) (s rest : str) (m : re_match) :
  In r [style_pattern; fill_dark_pattern; fill_light_pattern; fill_pattern] ->
  match_at r s = Some (m, rest) ->
  s = group0 m ++ rest /\ group0 m <> [].
Proof.
  intros [<-|[<-|[<-|[<-|[]]]]] H.
  - rewrite match_at_style in H. unfold style_match in H.
    destruct (startswith (L "<style>") s) eqn:E; [|discriminate].
    destruct (split_at (L "</style>") (skipn 7 s)) as [[inner after]|] eqn:Es;
      [|discriminate].
    injection H as <- <-. cbn [group0]. split; [|discriminate].
    rewrite (startswith_split _ _ E) at 1.
    change (skipn (length (L "<style>")) s) with (skipn 7 s).
    rewrite (split_at_eq _ _ _ _ Es). cbn [L list_ascii_of_string app fill_open]; rewrite <- ?app_assoc;
      reflexivity.
  - unfold fill_dark_pattern in H. rewrite match_at_attr in H.
    unfold attr_match in H.
    destruct (startswith (L "fill-dark" ++ ["="; dquote]) s) eqn:E;
      [|discriminate].
    destruct (split_at [dquote] _) as [[v after]|] eqn:Es; [|discriminate].
    injection H as <- <-. cbn [group0]. split; [|discriminate].
    rewrite (startswith_split _ _ E) at 1.
    rewrite (split_at_eq _ _ _ _ Es). cbn [L list_ascii_of_string app fill_open]; rewrite <- ?app_assoc;
      reflexivity.
  - unfold fill_light_pattern in H. rewrite match_at_attr in H.
    unfold attr_match in H.
    destruct (startswith (L "fill-light" ++ ["="; dquote]) s) eqn:E;
      [|discriminate].
    destruct (split_at [dquote] _) as [[v after]|] eqn:Es; [|discriminate].
    injection H as <- <-. cbn [group0]. split; [|discriminate].
    rewrite (startswith_split _ _ E) at 1.
    rewrite (split_at_eq _ _ _ _ Es). cbn [L list_ascii_of_string app fill_open]; rewrite <- ?app_assoc;
      reflexivity.
  - rewrite match_at_fill in H. unfold fill_match in H.
    destruct (startswith fill_open s) eqn:E; [|discriminate].
    destruct (split_at [dquote] (skipn 6 s)) as [[v after]|] eqn:Es;
      [|discriminate].
    destruct (companion after); [discriminate|].
    injection H as <- <-. cbn [group0]. split; [|discriminate].
    rewrite (startswith_split _ _ E) at 1.
    change (skipn (length fill_open) s) with (skipn 6 s).
    rewrite (split_at_eq _ _ _ _ Es). cbn [L list_ascii_of_string app fill_open]; rewrite <- ?app_assoc;
      reflexivity.
Qed.

(** ** The scan *)

Lemma scan_skip (r : regex) (a b : str) :
  scan r (length a) (a ++ b) = scan r 0 b.
Proof. induction a as [|c a IH]; [reflexivity|exact IH]. Qed.

Lemma scan_miss (r : regex) (c : ascii) (s : str) :
  match_at r (c :: s) = None -> scan r 0 (c :: s) = inl c :: scan r 0 s.
Proof. intro H. cbn [scan]. now rewrite H. Qed.

Lemma scan_hit (r : regex) (s rest : str) (m : re_match) :
  match_at r s = Some (m, rest) ->
  s = group0 m ++ rest ->
  group0 m <> [] ->
  scan r 0 s = inr m :: scan r 0 rest.
Proof.
  intros Hm Hs Hne.
  destruct (group0 m) as [|c g] eqn:Eg; [congruence|].
  rewrite Hs in Hm |- *. cbn [app scan]. cbn [app] in Hm.
  rewrite Hm, Eg. cbn [length]. now rewrite scan_skip.
Qed.

Lemma scan_no_match (r : regex) (s : str) :
  search r s = false -> scan r 0 s = map inl s.
Proof.
  unfold search. induction s as [|c s IH]; [reflexivity|].
  cbn [scan map].
  destruct (match_at r (c :: s)) as [[m rest]|].
  - destruct (length (group0 m)).
    + cbn [existsb is_match orb]. intro H. now rewrite IH.
    + cbn [existsb is_match orb]. discriminate.
  - cbn [existsb is_match orb]. intro H. now rewrite IH.
Qed.

Lemma remove_all_no_match (r : regex) (s : str) :
  search r s = false -> remove_all r s = s.
Proof.
  intro H. unfold remove_all. rewrite (scan_no_match _ _ H). clear H.
  induction s as [|c s IH]; [reflexivity|]. simpl. now f_equal.
Qed.


Lemma sub_with_no_match (r : regex) (repl : re_match -> result str) (s : str) :
  search r s = false -> sub_with r repl s = Ok s.
Proof.
  intro H. unfold sub_with. rewrite (scan_no_match _ _ H). clear H.
  induction s as [|c s IH]; [reflexivity|]. simpl. now rewrite IH.
Qed.

Lemma match_at_needs_text (t : str) (r : regex) (s : str) :
  startswith t s = false -> match_at (Seq (Text t) r) s = None.
Proof. intro H. unfold match_at. cbn [run]. now rewrite H. Qed.

(** A pattern that opens with a literal finds nothing in a text where a
    front part of that literal does not occur. *)
Lemma search_needs_text (t u : str) (r : regex) (s : str) :
  contains s t = false -> search (Seq (Text (t ++ u)) r) s = false.
Proof.
  unfold search. induction s as [|c s IH]; [reflexivity|].
  cbn [contains]. intro H. apply orb_false_iff in H. destruct H as [Hc Hs].
  rewrite scan_miss.
  - cbn [existsb is_match orb]. now apply IH.
  - apply match_at_needs_text.
    destruct (startswith (t ++ u) (c :: s)) eqn:E; [|reflexivity].
    apply startswith_prefix in E. congruence.
Qed.


Lemma findall_nil_search (r : regex) (s : str) :
  findall r s = [] -> search r s = false.
Proof.
  unfold findall, search. generalize (scan r 0 s) as pieces.
  induction pieces as [|[c|m] pieces IH]; simpl; intro H;
    [reflexivity|now apply IH|discriminate].
Qed.

Lemma bind_ok {A : Type} (r : result A) : (x <- r ;; Ok x) = r.
Proof. now destruct r. Qed.

(** ** Documents where the patterns find nothing *)

(** C7, as stated, fails: a companion attribute holds no [fill=], and it
    is stripped. *)
Lemma companion_only_is_changed :
  contains (Q "<a fill-dark='x'/>") (L "fill=") = false /\
  findall style_pattern (Q "<a fill-dark='x'/>") = [] /\
  add_dark_mode_attributes (Q "<a fill-dark='x'/>") = Ok (Q "<a />") /\
  add_dark_mode_attributes (Q "<a fill-dark='x'/>")
  <> Ok (Q "<a fill-dark='x'/>").
Proof.
  repeat split; try (vm_compute; reflexivity).
  vm_compute. discriminate.
Qed.

(** C7, amended: a text with no occurrence of [fill=], no style block and
    no [fill-dark] or [fill-light] attribute in double quotes is returned
    as it is, character for character. *)
Theorem unchanged_without_fill (s : str) :
  contains s (L "fill=") = false ->
  findall style_pattern s = [] ->
  search fill_dark_pattern s = false ->
  search fill_light_pattern s = false ->
  add_dark_mode_attributes s = Ok s.
Proof.
  intros Hfill Hstyle Hdark Hlight.
  unfold add_dark_mode_attributes, preserved, stripped.
  rewrite Hstyle.
  rewrite (remove_all_no_match _ _ (findall_nil_search _ _ Hstyle)).
  rewrite (remove_all_no_match _ _ Hdark), (remove_all_no_match _ _ Hlight).
  unfold rewrite_fills, fill_pattern.
  rewrite sub_with_no_match by now apply search_needs_text.
  reflexivity.
Qed.

Lemma unchanged_without_fill_witness :
  add_dark_mode_attributes (L "<not-valid-svg>") = Ok (L "<not-valid-svg>").
Proof.
  apply (unchanged_without_fill (L "<not-valid-svg>")); reflexivity.
Defined.




(** ** The fill rewriter *)

Lemma replace_fill_attribute (m : re_match) :
  replace_fill m
  = (dark_fill <- invert_color (group1 m) ;;
     Ok (attribute (L "fill") (group1 m) ++ L " "
           ++ attribute (L "fill-dark") dark_fill)).
Proof.
  unfold replace_fill, attribute. destruct (invert_color (group1 m)); [|reflexivity].
  cbn [bind]. f_equal. cbn [L list_ascii_of_string app].
  rewrite <- !app_assoc. reflexivity.
Qed.

Lemma fill_match_value (v post : str) :
  forallb not_quote v = true ->
  fill_match (attribute (L "fill") v ++ post)
  = if companion post then None
    else Some ({| group0 := attribute (L "fill") v; group1 := v |}, post).
Proof.
  intro Hv. unfold fill_match.
  replace (attribute (L "fill") v ++ post)
    with (fill_open ++ v ++ dquote :: post)
    by (unfold attribute; cbn [L list_ascii_of_string app fill_open];
        now rewrite <- app_assoc).
  rewrite startswith_app.
  change (skipn 6 (fill_open ++ v ++ dquote :: post)) with (v ++ dquote :: post).
  rewrite (split_at_value _ _ Hv).
  destruct (companion post); [reflexivity|].
  reflexivity.
Qed.

Lemma startswith_before (w a b : str) (sep : ascii) :
  ~ In sep w -> startswith w (a ++ sep :: b) = true -> startswith w a = true.
Proof.
  revert w. induction a as [|c a IH]; intros [|x w] Hsep H;
    try reflexivity.
  - cbn [app startswith] in H. apply andb_true_iff in H. destruct H as [H _].
    apply Ascii.eqb_eq in H. subst x. exfalso. apply Hsep. now left.
  - cbn [app startswith] in H |- *. apply andb_true_iff in H.
    destruct H as [-> H]. cbn [andb]. apply (IH w); [|exact H].
    intro Hin. apply Hsep. now right.
Qed.

Lemma quote_not_in_fill : ~ In dquote (L "fill=").
Proof.
  cbn [L list_ascii_of_string In]. intros [H|[H|[H|[H|[H|[]]]]]];
    discriminate H.
Qed.

(** The scan goes through a value that does not contain [fill=], closing
    quote included, without a match. *)
Lemma scan_value (v post : str) :
  contains v (L "fill=") = false ->
  scan fill_pattern 0 (v ++ dquote :: post)
  = map inl v ++ inl dquote :: scan fill_pattern 0 post.
Proof.
  induction v as [|c v IH]; intro H.
  - cbn [app map]. apply scan_miss. rewrite match_at_fill. reflexivity.
  - cbn [contains] in H. apply orb_false_iff in H. destruct H as [Hc Hv].
    cbn [app map]. rewrite scan_miss; [now rewrite (IH Hv)|].
    rewrite match_at_fill. unfold fill_match.
    destruct (startswith fill_open (c :: v ++ dquote :: post)) eqn:E;
      [|reflexivity].
    apply (startswith_prefix (L "fill=") [dquote]) in E.
    apply (startswith_before (L "fill=") (c :: v) post dquote
             quote_not_in_fill) in E.
    congruence.
Qed.

Lemma rewrite_fills_step (c : ascii) (s : str) :
  startswith fill_open (c :: s) = false ->
  rewrite_fills (c :: s) = (tail <- rewrite_fills s ;; Ok (c :: tail)).
Proof.
  intro H. unfold rewrite_fills, sub_with. rewrite scan_miss; [reflexivity|].
  rewrite match_at_fill. unfold fill_match. now rewrite H.
Qed.

Lemma sub_pieces_chars (repl : re_match -> result str) (a : str)
    (pieces : list (ascii + re_match)) :
  sub_pieces repl (map inl a ++ pieces)
  = (tail <- sub_pieces repl pieces ;; Ok (a ++ tail)).
Proof.
  induction a as [|c a IH]; cbn [map app sub_pieces].
  - now rewrite bind_ok.
  - rewrite IH. now destruct (sub_pieces repl pieces).
Qed.

(** Before a [fill] attribute no match can begin in a text that does not
    contain [fill=]: the opening of the pattern cannot lie across the
    border. *)
Lemma no_early_open (c : ascii) (pre x : str) :
  startswith (L "fill=") (c :: pre) = false ->
  startswith fill_open ((c :: pre) ++ fill_open ++ x) = false.
Proof.
  intro H.
  destruct (startswith fill_open ((c :: pre) ++ fill_open ++ x)) eqn:E;
    [|reflexivity].
  exfalso.
  destruct pre as [|c1 [|c2 [|c3 [|c4 rest]]]];
    cbn [fill_open L list_ascii_of_string app startswith] in E, H;
    repeat match goal with
           | K : (_ && _)%bool = true |- _ =>
               apply andb_true_iff in K; destruct K
           end;
    try match goal with
        | K : Ascii.eqb ?a ?b = true |- _ =>
            apply Ascii.eqb_eq in K; discriminate K
        end.
  repeat match goal with
         | K : Ascii.eqb _ _ = true |- _ => rewrite K in H; clear K
         end.
  discriminate H.
Qed.

Lemma rewrite_fills_prefix (pre x : str) :
  contains pre (L "fill=") = false ->
  rewrite_fills (pre ++ fill_open ++ x)
  = (tail <- rewrite_fills (fill_open ++ x) ;; Ok (pre ++ tail)).
Proof.
  induction pre as [|c pre IH]; intro H.
  - cbn [app]. now rewrite bind_ok.
  - cbn [contains] in H. apply orb_false_iff in H. destruct H as [Hc Hp].
    change ((c :: pre) ++ fill_open ++ x) with (c :: pre ++ fill_open ++ x).
    rewrite rewrite_fills_step by exact (no_early_open c pre x Hc).
    rewrite (IH Hp). now destruct (rewrite_fills (fill_open ++ x)).
Qed.

Lemma attribute_fill (v post : str) :
  attribute (L "fill") v ++ post = fill_open ++ v ++ dquote :: post.
Proof.
  unfold attribute. cbn [L list_ascii_of_string app fill_open].
  now rewrite <- app_assoc.
Qed.

(** C6, as stated, fails.  The lookahead asks for white space and the
    text [fill-dark], not for a companion attribute: a [fill] followed by
    an attribute of a longer name is left without a companion.  And the
    scan takes occurrences from left to right without overlap: a [fill]
    that begins inside the value of an earlier match is not rewritten. *)
Lemma fill_not_rewritten :
  contains (Q "<a fill='red' fill-darker='1'/>") (Q "fill='red'") = true /\
  add_dark_mode_attributes (Q "<a fill='red' fill-darker='1'/>")
  = Ok (Q "<a fill='red' fill-darker='1'/>") /\
  contains (Q "<a fill='x fill='y'/>") (Q "fill='y'") = true /\
  add_dark_mode_attributes (Q "<a fill='x fill='y'/>")
  = Ok (Q "<a fill='x fill=' fill-dark='x fill='y'/>").
Proof. repeat split; vm_compute; reflexivity. Qed.

(** C6, amended: the text that reaches the rewriter, the document with
    its style blocks and companions removed, is scanned from left to
    right.  The first [fill] attribute, with the value [v], when it is
    not followed by white space and the text [fill-dark], becomes the same
    attribute, its value untouched, then one space, then [fill-dark] with
    the value [invert_color v]; the text before it stays and the scan goes
    on after it.  An attribute that is followed by white space and the
    text [fill-dark] stays as it is, and so does every character where
    [fill=Q] does not begin; a text without [fill=], the empty one
    included, is returned as it is. *)
Theorem fill_rewriting (pre v post : str) :
  forallb not_quote v = true ->
  contains pre (L "fill=") = false ->
  (companion post = false ->
   rewrite_fills (pre ++ attribute (L "fill") v ++ post)
   = (dark_fill <- invert_color v ;;
      tail <- rewrite_fills post ;;
      Ok (pre ++ attribute (L "fill") v ++ L " "
            ++ attribute (L "fill-dark") dark_fill ++ tail))) /\
  (companion post = true ->
   contains v (L "fill=") = false ->
   rewrite_fills (pre ++ attribute (L "fill") v ++ post)
   = (tail <- rewrite_fills post ;;
      Ok (pre ++ attribute (L "fill") v ++ tail))) /\
  (forall c s, startswith (L "fill=" ++ [dquote]) (c :: s) = false ->
   rewrite_fills (c :: s) = (tail <- rewrite_fills s ;; Ok (c :: tail))) /\
  (forall svg_content,
     add_dark_mode_attributes svg_content
     = (content <- rewrite_fills
                     (remove_all fill_light_pattern
                        (remove_all fill_dark_pattern
                           (remove_all style_pattern svg_content))) ;;
        Ok (reinsert (preserved svg_content) content))) /\
  (forall s, contains s (L "fill=") = false -> rewrite_fills s = Ok s).
Proof.
  intros Hv Hpre. split; [|split; [|split; [|split]]].
  - intro Hc. rewrite attribute_fill, (rewrite_fills_prefix _ _ Hpre).
    rewrite <- attribute_fill. unfold rewrite_fills, sub_with.
    rewrite (scan_hit fill_pattern _ post
               {| group0 := attribute (L "fill") v; group1 := v |}).
    + cbn [sub_pieces]. rewrite replace_fill_attribute. cbn [group1].
      destruct (invert_color v) as [d|e]; [|reflexivity].
      cbn [bind].
      destruct (sub_pieces replace_fill (scan fill_pattern 0 post));
        [|reflexivity].
      cbn [bind]. now rewrite <- !app_assoc.
    + rewrite match_at_fill, (fill_match_value _ _ Hv). now rewrite Hc.
    + reflexivity.
    + discriminate.
  - intros Hc Hin. rewrite attribute_fill, (rewrite_fills_prefix _ _ Hpre).
    rewrite <- attribute_fill. unfold rewrite_fills, sub_with.
    assert (Hscan : scan fill_pattern 0 (attribute (L "fill") v ++ post)
                    = map inl (attribute (L "fill") v)
                        ++ scan fill_pattern 0 post).
    { assert (Hm : match_at fill_pattern (attribute (L "fill") v ++ post) = None)
        by (rewrite match_at_fill, (fill_match_value _ _ Hv); now rewrite Hc).
      unfold attribute in *. cbn [L list_ascii_of_string app map] in *.
      rewrite (scan_miss _ _ _ Hm).
      do 5 (rewrite scan_miss by (rewrite match_at_fill; reflexivity)).
      rewrite <- app_assoc. cbn [app].
      rewrite (scan_value _ _ Hin), map_app, <- app_assoc. reflexivity. }
    rewrite Hscan, sub_pieces_chars.
    now destruct (sub_pieces replace_fill (scan fill_pattern 0 post)).
  - intros c s. apply rewrite_fills_step.
  - reflexivity.
  - intros s Hs. unfold rewrite_fills, fill_pattern.
    apply sub_with_no_match. now apply search_needs_text.
Qed.

Lemma fill_rewriting_witness :
  rewrite_fills (L "<path " ++ attribute (L "fill") (L "#000000") ++ L "/>")
  = Ok (L "<path " ++ attribute (L "fill") (L "#000000") ++ L " "
          ++ attribute (L "fill-dark") (L "#ffffff") ++ L "/>") /\
  rewrite_fills (L "<path " ++ attribute (L "fill") (L "red") ++ L " fill-dark")
  = Ok (L "<path " ++ attribute (L "fill") (L "red") ++ L " fill-dark").
Proof.
  split.
  - rewrite (proj1 (fill_rewriting (L "<path ") (L "#000000") (L "/>")
                      eq_refl eq_refl) eq_refl).
    reflexivity.
  - rewrite (proj1 (proj2 (fill_rewriting (L "<path ") (L "red")
                             (L " fill-dark") eq_refl eq_refl))
               eq_refl eq_refl).
    reflexivity.
Defined.

(** ** The style filter *)








(** ** The pipeline on two small documents *)

(** C1: the pipeline raises on a fill value that begins with [#] and is
    too short, or is not made of hexadecimal digits: [ValueError] leaves
    [int] and nothing catches it. *)
Lemma malformed_hex_raises :
  add_dark_mode_attributes (Q "<path fill='#FFF'/>") = Raise invalid_literal /\
  add_dark_mode_attributes (Q "<path fill='#GGGGGG'/>") = Raise invalid_literal.
Proof. split; vm_compute; reflexivity. Qed.

(** C2: the second run strips the companion and leaves the space that the
    first run wrote before it, so the results of one run and of two runs
    differ. *)
Lemma second_run_differs :
  add_dark_mode_attributes (Q "<path fill='#000000'/>")
  = Ok (Q "<path fill='#000000' fill-dark='#ffffff'/>") /\
  add_dark_mode_attributes (Q "<path fill='#000000' fill-dark='#ffffff'/>")
  = Ok (Q "<path fill='#000000' fill-dark='#ffffff' />") /\
  (once <- add_dark_mode_attributes (Q "<path fill='#000000'/>") ;;
   add_dark_mode_attributes once)
  <> add_dark_mode_attributes (Q "<path fill='#000000'/>").
Proof.
  repeat split; try (vm_compute; reflexivity).
  vm_compute. discriminate.
Qed.

(** ** The batch driver on a directory *)

Lemma attempted_app (l1 l2 : log) :
  attempted (l1 ++ l2) = attempted l1 ++ attempted l2.
Proof. unfold attempted. apply flat_map_app. Qed.

Lemma process_svg_file_spec (w : world) (filename : str) (l : log) :
  attempted (fst (process_svg_file w filename l)) = attempted l ++ [filename]
  /\ snd (process_svg_file w filename l) = outcome w filename.
Proof.
  unfold outcome, process_svg_file.
  destruct (read_text w filename) as [svg|e]; cbn [fst snd].
  - destruct (add_dark_mode_attributes svg) as [modified|e]; cbn [fst snd].
    + destruct (write_text w filename modified) as [u|e]; cbn [fst snd].
      * split; [|reflexivity]. rewrite !attempted_app. cbn. now rewrite app_nil_r.
      * split; [|reflexivity]. now rewrite attempted_app.
    + split; [|reflexivity]. now rewrite attempted_app.
  - split; [|reflexivity]. now rewrite attempted_app.
Qed.

(** A failure of a caught class is recorded and the loop goes on with the
    next name. *)
Lemma batch_caught (w : world) (filename : str) (rest : list str) (l : log)
    (errors : list (str * exn)) (e : exn) :
  endswith (L ".svg") filename = true ->
  outcome w filename = Raise e ->
  caught e = true ->
  batch w (filename :: rest) l errors
  = batch w rest (fst (process_svg_file w filename l))
          (errors ++ [(filename, e)]).
Proof.
  intros Hsvg Hout Hc. cbn [batch]. rewrite Hsvg.
  destruct (process_svg_file_spec w filename l) as [_ Hr].
  destruct (process_svg_file w filename l) as [l1 r]. cbn [fst snd] in *.
  rewrite Hr, Hout. now rewrite Hc.
Qed.

Lemma only_caught_tail (w : world) (f : str) (names : list str) :
  only_caught w (f :: names) -> only_caught w names.
Proof.
  intros H g e Hg. apply H. unfold svg_files in *. cbn [filter].
  destruct (endswith (L ".svg") f); [now right|exact Hg].
Qed.

(** When only caught failures occur the loop takes up every [.svg] file,
    in the order of the listing, and collects one error per failure. *)
Lemma batch_complete (w : world) (names : list str) :
  only_caught w names ->
  forall l errors, exists collected,
    batch w names l errors = (fst (batch w names l errors), Ok collected) /\
    attempted (fst (batch w names l errors))
    = attempted l ++ svg_files names /\
    length collected = length errors + length (failures w names).
Proof.
  induction names as [|f names IH]; intros Hall l errors.
  - exists errors. cbn. rewrite app_nil_r. repeat split. lia.
  - specialize (IH (only_caught_tail _ _ _ Hall)).
    unfold failures, svg_files in *. cbn [batch filter].
    destruct (endswith (L ".svg") f) eqn:Esvg; [|apply IH].
    destruct (process_svg_file_spec w f l) as [Hlog Hr].
    destruct (process_svg_file w f l) as [l1 r]. cbn [fst snd] in Hlog, Hr.
    subst r. cbn [filter].
    destruct (outcome w f) as [u|e] eqn:Eout; cbn [is_ok negb].
    + destruct (IH l1 errors) as (collected & Hb & Ha & Hlen).
      exists collected. split; [exact Hb|]. split; [|exact Hlen].
      rewrite Ha, Hlog, <- app_assoc. reflexivity.
    + rewrite (Hall f e); [|unfold svg_files; cbn [filter]; rewrite Esvg; now left|exact Eout].
      destruct (IH l1 (errors ++ [(f, e)])) as (collected & Hb & Ha & Hlen).
      exists collected. split; [exact Hb|]. split.
      * rewrite Ha, Hlog, <- app_assoc. reflexivity.
      * rewrite Hlen, length_app. cbn [length]. lia.
Qed.

(** When the source path is not a directory [process_folder] raises the
    validation error and no file is touched.  On a directory, a file
    that fails with [IOError] or [UnicodeDecodeError] is recorded and the
    loop goes on with the next name; when every failure is of these
    classes every [.svg] file of the listing is attempted, in order, and
    only then [process_folder] raises one [ValueError] whose message
    holds the number of failures in decimal, or returns when there is
    none. *)
Theorem process_folder_errors (w : world) (l : log) :
  (isdir w = false ->
   process_folder w l
   = (l, Raise (ValueError "Source path is not a valid directory"))) /\
  (forall filename rest errors e,
     endswith (L ".svg") filename = true ->
     outcome w filename = Raise e ->
     caught e = true ->
     exists l1,
       attempted l1 = attempted l ++ [filename] /\
       batch w (filename :: rest) l errors
       = batch w rest l1 (errors ++ [(filename, e)])) /\
  (forall names,
     isdir w = true ->
     makedirs w = Ok tt ->
     listdir w = Ok names ->
     only_caught w names ->
     attempted (fst (process_folder w l)) = attempted l ++ svg_files names /\
     snd (process_folder w l)
     = match length (failures w names) with
       | O => Ok tt
       | S _ as n =>
           Raise (ValueError
                    ("Failed to process "
                       ++ NilEmpty.string_of_uint (Nat.to_uint n)
                       ++ " files")%string)
       end).
Proof.
  split; [|split].
  - intro H. unfold process_folder. now rewrite H.
  - intros filename rest errors e Hsvg Hout Hc.
    exists (fst (process_svg_file w filename l)). split.
    + apply process_svg_file_spec.
    + now apply batch_caught.
  - intros names Hd Hm Hl Hall. unfold process_folder.
    rewrite Hd, Hm, Hl. cbn [negb].
    destruct (batch_complete w names Hall l []) as (collected & Hb & Ha & Hlen).
    rewrite Hb. cbn [length Nat.add] in Hlen.
    destruct collected as [|c collected]; cbn [length] in Hlen.
    + rewrite <- Hlen. cbn [fst snd]. now split.
    + rewrite <- Hlen. cbn [fst snd length]. now split.
Qed.

Lemma process_folder_errors_witness :
  attempted (fst (process_folder sample_world []))
  = [] ++ svg_files [L "a.svg"; L "b.svg"; L "notes.txt"; L "c.svg"] /\
  snd (process_folder sample_world [])
  = match length (failures sample_world
                    [L "a.svg"; L "b.svg"; L "notes.txt"; L "c.svg"]) with
    | O => Ok tt
    | S _ as n =>
        Raise (ValueError
                 ("Failed to process "
                    ++ NilEmpty.string_of_uint (Nat.to_uint n)
                    ++ " files")%string)
    end.
Proof.
  apply (proj2 (proj2 (process_folder_errors sample_world []))
           [L "a.svg"; L "b.svg"; L "notes.txt"; L "c.svg"]);
    try reflexivity.
  intros f e Hf He. vm_compute in Hf.
  destruct Hf as [<-|[<-|[<-|[]]]]; vm_compute in He;
    try discriminate He.
  injection He as <-. reflexivity.
Defined.

(** * Further properties of the module *)

(** ** [hex_to_rgb] and [rgb_to_hex] *)

Lemma byte_format (n : Z) :
  (0 <= n <= 255)%Z ->
  exists a b,
    format_02x n = [a; b] /\ is_hex a = true /\ is_hex b = true /\
    lower_char a = a /\ lower_char b = b /\ int16 [a; b] = Ok n.
Proof.
  intro Hn.
  assert (Hall : forallb byte_ok (seq 0 256) = true) by (vm_compute; reflexivity).
  rewrite forallb_forall in Hall.
  assert (Hin : In (Z.to_nat n) (seq 0 256)) by (apply in_seq; lia).
  specialize (Hall _ Hin). unfold byte_ok in Hall.
  rewrite Z2Nat.id in Hall by lia.
  destruct (format_02x n) as [|a [|b [|c rest]]]; try discriminate.
  repeat (apply andb_true_iff in Hall; destruct Hall as [Hall ?]).
  exists a, b. repeat split; try assumption; try now apply Ascii.eqb_eq.
  destruct (int16 [a; b]) as [v|e]; [|discriminate].
  simpl in *. f_equal. now apply Z.eqb_eq.
Qed.

Lemma hex_to_rgb_digits (a b c d e f : ascii) (extra : str) :
  is_hex a = true ->
  hex_to_rgb ("#" :: a :: b :: c :: d :: e :: f :: extra)
  = (r <- int16 [a; b] ;; g <- int16 [c; d] ;; b' <- int16 [e; f] ;;
     Ok (r, g, b')).
Proof.
  intro Ha. unfold hex_to_rgb.
  assert (Hs : lstrip "#" ("#" :: a :: b :: c :: d :: e :: f :: extra)
               = a :: b :: c :: d :: e :: f :: extra).
  { simpl. now rewrite (hex_not_hash a). }
  rewrite Hs. reflexivity.
Qed.

(** [rgb_to_hex] writes components between 0 and 255 as [#] and six
    lower-case hexadecimal digits, and [hex_to_rgb] reads the same
    components back. *)
Theorem rgb_to_hex_to_rgb (c : rgb) :
  in_byte c ->
  is_hex_color (rgb_to_hex c) = true /\
  lower (rgb_to_hex c) = rgb_to_hex c /\
  hex_to_rgb (rgb_to_hex c) = Ok c.
Proof.
  destruct c as [[r g] b]. intros (Hr & Hg & Hb).
  destruct (byte_format r Hr) as (r1 & r2 & Er & ? & ? & ? & ? & Ir).
  destruct (byte_format g Hg) as (g1 & g2 & Eg & ? & ? & ? & ? & Ig).
  destruct (byte_format b Hb) as (b1 & b2 & Eb & ? & ? & ? & ? & Ib).
  unfold rgb_to_hex. rewrite Er, Eg, Eb. cbn [app].
  split; [|split].
  - simpl. repeat (rewrite H || rewrite H0 || rewrite H3 || rewrite H4
                   || rewrite H7 || rewrite H8). reflexivity.
  - unfold lower. cbn [map]. now repeat f_equal.
  - rewrite hex_to_rgb_digits by assumption. now rewrite Ir, Ig, Ib.
Qed.

Lemma rgb_to_hex_to_rgb_witness :
  is_hex_color (rgb_to_hex (18, 171, 239)%Z) = true /\
  lower (rgb_to_hex (18, 171, 239)%Z) = rgb_to_hex (18, 171, 239)%Z /\
  hex_to_rgb (rgb_to_hex (18, 171, 239)%Z) = Ok (18, 171, 239)%Z.
Proof.
  apply (rgb_to_hex_to_rgb (18, 171, 239)%Z). cbv [in_byte]. lia.
Defined.

Lemma format_component (a b : ascii) :
  is_hex a = true -> is_hex b = true ->
  format_02x (component a b) = [lower_char a; lower_char b].
Proof.
  intros Ha Hb. apply str_eqb_eq. revert a b Ha Hb.
  apply (hex_forall2 (fun a b => str_eqb (format_02x (component a b))
                                         [lower_char a; lower_char b])).
  vm_compute. reflexivity.
Qed.

(** [hex_to_rgb] reads every [#RRGGBB] colour, its components are between
    0 and 255, and [rgb_to_hex] writes it back with its digits in lower
    case. *)
Theorem hex_to_rgb_to_hex (color : str) :
  is_hex_color color = true ->
  exists c,
    hex_to_rgb color = Ok c /\ in_byte c /\ rgb_to_hex c = lower color.
Proof.
  intro H.
  destruct (is_hex_color_inv _ H) as (a & b & c & d & e & f & -> & Hhex).
  simpl in Hhex.
  repeat (apply andb_true_iff in Hhex; destruct Hhex as [? Hhex]).
  exists (component a b, component c d, component e f).
  split; [|split].
  - rewrite hex_to_rgb_digits by assumption.
    now rewrite !int16_pair by assumption.
  - assert (Hc : forall x y, is_hex x = true -> is_hex y = true ->
                             (0 <= component x y <= 255)%Z).
    { intros x y Hx Hy.
      assert (Hb : ((0 <=? component x y) && (component x y <=? 255))%Z = true).
      { revert x y Hx Hy.
        apply (hex_forall2 (fun x y => ((0 <=? component x y)
                                        && (component x y <=? 255))%Z)).
        vm_compute. reflexivity. }
      apply andb_true_iff in Hb. destruct Hb as [H1' H2'].
      apply Z.leb_le in H1'. apply Z.leb_le in H2'. lia. }
    cbv [in_byte]. auto.
  - unfold rgb_to_hex. rewrite !format_component by assumption. reflexivity.
Qed.

Lemma hex_to_rgb_to_hex_witness :
  exists c,
    hex_to_rgb (L "#12ABef") = Ok c /\ in_byte c /\
    rgb_to_hex c = lower (L "#12ABef").
Proof. apply (hex_to_rgb_to_hex (L "#12ABef")). reflexivity. Defined.

Lemma int16_raises (s : str) (e : exn) :
  int16 s = Raise e -> e = invalid_literal.
Proof.
  unfold int16.
  destruct (match strip_int_space s with
            | "+" :: r => (false, r)
            | "-" :: r => (true, r)
            | _ => (false, strip_int_space s)
            end) as [neg t1].
  destruct (hex_digits false 0 _); [discriminate|].
  now intros [= <-].
Qed.

Lemma hex_to_rgb_raises (s : str) (e : exn) :
  hex_to_rgb s = Raise e -> e = invalid_literal.
Proof.
  unfold hex_to_rgb.
  destruct (int16 (slice 0 2 (lstrip "#" s))) as [r|e1] eqn:E1; cbn [bind].
  - destruct (int16 (slice 2 4 (lstrip "#" s))) as [g|e2] eqn:E2; cbn [bind].
    + destruct (int16 (slice 4 6 (lstrip "#" s))) as [b|e3] eqn:E3; cbn [bind].
      * discriminate.
      * intros [= <-]. now apply int16_raises in E3.
    + intros [= <-]. now apply int16_raises in E2.
  - intros [= <-]. now apply int16_raises in E1.
Qed.

(** A colour with fewer than five characters after its leading [#]s, the
    three-digit short form among them, makes [hex_to_rgb] raise: the third
    slice is empty and [int] refuses it.  [invert_color] passes the error
    on. *)
Theorem hex_to_rgb_short (s : str) :
  length (lstrip "#" s) < 5 ->
  hex_to_rgb s = Raise invalid_literal /\
  invert_color ("#" :: s) = Raise invalid_literal.
Proof.
  intro Hlen.
  assert (Hh : hex_to_rgb s = Raise invalid_literal).
  { destruct (hex_to_rgb s) as [c|e] eqn:E.
    - exfalso. unfold hex_to_rgb in E.
      assert (H3 : int16 (slice 4 6 (lstrip "#" s)) = Raise invalid_literal).
      { destruct (lstrip "#" s) as [|a [|b [|c' [|d [|x rest]]]]];
          try reflexivity.
        simpl in Hlen. lia. }
      rewrite H3 in E.
      destruct (int16 (slice 0 2 (lstrip "#" s))); [|discriminate].
      destruct (int16 (slice 2 4 (lstrip "#" s))); discriminate.
    - f_equal. now apply hex_to_rgb_raises in E. }
  split; [exact Hh|].
  unfold invert_color. rewrite lookup_hash.
  change (startswith (L "#") ("#" :: s)) with true. cbv iota.
  assert (Hs : hex_to_rgb ("#" :: s) = hex_to_rgb s) by reflexivity.
  now rewrite Hs, Hh.
Qed.

Lemma hex_to_rgb_short_witness :
  hex_to_rgb (L "#FFF") = Raise invalid_literal /\
  invert_color ("#" :: L "#FFF") = Raise invalid_literal.
Proof. apply (hex_to_rgb_short (L "#FFF")). simpl. lia. Defined.

Lemma int16_signed (a : ascii) :
  is_hex a = true -> int16 ["-"; a] = Ok (- digit_value a)%Z.
Proof.
  intro Ha.
  assert (H : Z_result_eqb (int16 ["-"; a]) (- digit_value a) = true).
  { revert a Ha.
    apply (hex_forall (fun a => Z_result_eqb (int16 ["-"; a]) (- digit_value a))).
    vm_compute. reflexivity. }
  destruct (int16 ["-"; a]) as [v|e]; [|discriminate].
  simpl in H. apply Z.eqb_eq in H. now subst v.
Qed.

Lemma format_over (a : ascii) :
  is_hex a = true -> (0 < digit_value a)%Z ->
  length (format_02x (255 + digit_value a)) = 3.
Proof.
  intros Ha Hpos.
  assert (H : ((digit_value a <=? 0)%Z
               || (length (format_02x (255 + digit_value a)) =? 3)) = true).
  { clear Hpos. revert a Ha.
    apply (hex_forall (fun a => (digit_value a <=? 0)%Z
             || (length (format_02x (255 + digit_value a)) =? 3))).
    vm_compute. reflexivity. }
  apply orb_true_iff in H. destruct H as [H|H].
  - apply Z.leb_le in H. lia.
  - now apply Nat.eqb_eq in H.
Qed.

(** [int] accepts a sign, so a component written [-d] is read as a
    negative number; its inverse exceeds 255 and takes three digits, and
    the result of [invert_color] is one character longer than a colour. *)
Theorem invert_color_signed (a b c d e : ascii) (extra : str) :
  forallb is_hex [a; b; c; d; e] = true ->
  (0 < digit_value a)%Z ->
  invert_color ("#" :: "-" :: a :: b :: c :: d :: e :: extra)
  = Ok ("#" :: format_02x (255 + digit_value a)
            ++ format_02x (255 - component b c)
            ++ format_02x (255 - component d e)) /\
  length ("#" :: format_02x (255 + digit_value a)
              ++ format_02x (255 - component b c)
              ++ format_02x (255 - component d e)) = 8.
Proof.
  intros H Hpos. simpl in H.
  repeat (apply andb_true_iff in H; destruct H as [? H]).
  split.
  - unfold invert_color. rewrite lookup_hash.
    change (startswith (L "#") ("#" :: "-" :: a :: b :: c :: d :: e :: extra))
      with true.
    cbv iota. unfold hex_to_rgb.
    change (lstrip "#" ("#" :: "-" :: a :: b :: c :: d :: e :: extra))
      with ("-" :: a :: b :: c :: d :: e :: extra).
    change (slice 0 2 ("-" :: a :: b :: c :: d :: e :: extra)) with ["-"; a].
    change (slice 2 4 ("-" :: a :: b :: c :: d :: e :: extra)) with [b; c].
    change (slice 4 6 ("-" :: a :: b :: c :: d :: e :: extra)) with [d; e].
    rewrite int16_signed, !int16_pair by assumption.
    cbn [bind]. unfold rgb_to_hex.
    replace (255 - - digit_value a)%Z with (255 + digit_value a)%Z by lia.
    reflexivity.
  - cbn [length]. rewrite !length_app, (format_over a) by assumption.
    rewrite !format_inverted by assumption. reflexivity.
Qed.

Lemma invert_color_signed_witness :
  invert_color (L "#-f0000")
  = Ok ("#" :: format_02x (255 + digit_value "f")
            ++ format_02x (255 - component "0" "0")
            ++ format_02x (255 - component "0" "0")) /\
  length ("#" :: format_02x (255 + digit_value "f")
              ++ format_02x (255 - component "0" "0")
              ++ format_02x (255 - component "0" "0")) = 8.
Proof.
  apply (invert_color_signed "f" "0" "0" "0" "0" []); [reflexivity|].
  vm_compute. reflexivity.
Defined.

(** ** What the pipeline raises *)

Lemma sub_pieces_raises (repl : re_match -> result str)
    (pieces : list (ascii + re_match)) (e : exn) :
  sub_pieces repl pieces = Raise e ->
  exists m, In (inr m) pieces /\ repl m = Raise e.
Proof.
  induction pieces as [|[c|m] pieces IH]; cbn [sub_pieces]; intro H.
  - discriminate.
  - destruct (sub_pieces repl pieces) as [tail|e'] eqn:E; [discriminate|].
    cbn [bind] in H. injection H as ->.
    destruct (IH eq_refl) as [m [Hin Hm]]. exists m. split; [now right|exact Hm].
  - destruct (repl m) as [t|e'] eqn:Em; cbn [bind] in H.
    + destruct (sub_pieces repl pieces) as [tail|e''] eqn:E; [discriminate|].
      cbn [bind] in H. injection H as ->.
      destruct (IH eq_refl) as [m' [Hin Hm]]. exists m'.
      split; [now right|exact Hm].
    + injection H as ->. exists m. split; [now left|exact Em].
Qed.

Lemma invert_color_raises (color : str) (e : exn) :
  invert_color color = Raise e ->
  e = invalid_literal /\ startswith (L "#") color = true.
Proof.
  unfold invert_color.
  destruct (lookup (lower color) color_map); [discriminate|].
  destruct (startswith (L "#") color); [|discriminate].
  destruct (hex_to_rgb color) as [[[r g] b]|e'] eqn:E; cbn [bind];
    [discriminate|].
  intros [= <-]. split; [|reflexivity]. now apply hex_to_rgb_raises in E.
Qed.

(** Every match that the scan reports is a match at some place of the
    text. *)
Lemma scan_match_origin (r : regex) (m : re_match) (s : str) (skip : nat) :
  In (inr m) (scan r skip s) ->
  exists pre t rest, s = pre ++ t /\ match_at r t = Some (m, rest).
Proof.
  revert skip. induction s as [|c s IH]; intros skip H; [contradiction|].
  cbn [scan] in H. destruct skip as [|n].
  - destruct (match_at r (c :: s)) as [[m' rest]|] eqn:E.
    + destruct (length (group0 m')) eqn:El.
      * destruct H as [H|H]; [discriminate|].
        destruct (IH _ H) as (pre & t & rest' & -> & Ht).
        now exists (c :: pre), t, rest'.
      * destruct H as [H|H].
        -- injection H as ->. now exists [], (c :: s), rest.
        -- destruct (IH _ H) as (pre & t & rest' & -> & Ht).
           now exists (c :: pre), t, rest'.
    + destruct H as [H|H]; [discriminate|].
      destruct (IH _ H) as (pre & t & rest' & -> & Ht).
      now exists (c :: pre), t, rest'.
  - destruct (IH _ H) as (pre & t & rest' & -> & Ht).
    now exists (c :: pre), t, rest'.
Qed.

Lemma scan_chars (r : regex) (c : ascii) (s : str) (skip : nat) :
  In (inl c) (scan r skip s) -> In c s.
Proof.
  revert skip. induction s as [|a s IH]; intros skip H; [contradiction|].
  cbn [scan] in H. destruct skip as [|n].
  - destruct (match_at r (a :: s)) as [[m' rest]|].
    + destruct (length (group0 m')).
      * destruct H as [H|H]; [injection H as ->; now left|right; eauto].
      * destruct H as [H|H]; [discriminate|right; eauto].
    + destruct H as [H|H]; [injection H as ->; now left|right; eauto].
  - right. eauto.
Qed.

Lemma remove_all_chars (r : regex) (c : ascii) (s : str) :
  In c (remove_all r s) -> In c s.
Proof.
  unfold remove_all. intro H. apply in_flat_map in H.
  destruct H as [[a|m] [Hin Hc]]; [|contradiction].
  destruct Hc as [<-|[]]. now apply scan_chars in Hin.
Qed.

Lemma raise_origin (svg_content : str) (e : exn) :
  add_dark_mode_attributes svg_content = Raise e ->
  e = invalid_literal /\
  exists m,
    In (inr m) (scan fill_pattern 0 (stripped svg_content)) /\
    startswith (L "#") (group1 m) = true /\
    invert_color (group1 m) = Raise invalid_literal.
Proof.
  unfold add_dark_mode_attributes, rewrite_fills, sub_with. intro H.
  destruct (sub_pieces replace_fill (scan fill_pattern 0 (stripped svg_content)))
    as [content|e'] eqn:E; [discriminate|].
  cbn [bind] in H. injection H as ->.
  destruct (sub_pieces_raises _ _ _ E) as [m [Hin Hm]].
  unfold replace_fill in Hm.
  destruct (invert_color (group1 m)) as [d|e'] eqn:Ei; [discriminate|].
  cbn [bind] in Hm. injection Hm as ->.
  destruct (invert_color_raises _ _ Ei) as [-> Hs].
  split; [reflexivity|]. now exists m.
Qed.

(** Between its diagnostic prints, the steps of
    [add_dark_mode_attributes] that compute the text raise nothing but
    the [ValueError] of [int], and only out of [invert_color] on a fill
    value of the stripped text that begins with [#]. *)
Theorem pipeline_raises (svg_content : str) (e : exn) :
  add_dark_mode_attributes svg_content = Raise e ->
  (exists msg, e = ValueError msg) /\
  exists m,
    In (inr m) (scan fill_pattern 0 (stripped svg_content)) /\
    startswith (L "#") (group1 m) = true /\
    invert_color (group1 m) = Raise e.
Proof.
  intro H. destruct (raise_origin _ _ H) as (-> & m & Hin & Hs & Hi).
  split; [now eexists|]. now exists m.
Qed.

Lemma pipeline_raises_witness :
  (exists msg, invalid_literal = ValueError msg) /\
  exists m,
    In (inr m) (scan fill_pattern 0 (stripped (Q "<path fill='#FFF'/>"))) /\
    startswith (L "#") (group1 m) = true /\
    invert_color (group1 m) = Raise invalid_literal.
Proof.
  apply (pipeline_raises (Q "<path fill='#FFF'/>") invalid_literal).
  vm_compute. reflexivity.
Defined.

(** On a document without the character [#] the steps between the
    diagnostic prints never raise: the text is always computed. *)
Theorem pipeline_returns_without_hash (svg_content : str) :
  existsb (Ascii.eqb "#") svg_content = false ->
  exists out, add_dark_mode_attributes svg_content = Ok out.
Proof.
  intro Hno.
  destruct (add_dark_mode_attributes svg_content) as [out|e] eqn:E;
    [now exists out|].
  exfalso.
  destruct (raise_origin _ _ E) as (_ & m & Hin & Hs & _).
  destruct (scan_match_origin _ _ _ _ Hin) as (pre & t & rest & Hpre & Hm).
  rewrite match_at_fill in Hm. unfold fill_match in Hm.
  destruct (startswith fill_open t) eqn:Eo; [|discriminate].
  destruct (split_at [dquote] (skipn 6 t)) as [[v after]|] eqn:Es;
    [|discriminate].
  destruct (companion after); [discriminate|].
  injection Hm as <- <-. cbn [group1] in Hs.
  destruct v as [|h v]; [discriminate|].
  cbn [L list_ascii_of_string startswith] in Hs.
  rewrite andb_true_r in Hs.
  assert (Hin' : In h (stripped svg_content)).
  { rewrite Hpre, (startswith_split _ _ Eo).
    change (skipn (length fill_open) t) with (skipn 6 t).
    rewrite (split_at_eq _ _ _ _ Es).
    apply in_or_app. right. apply in_or_app. right. now left. }
  unfold stripped in Hin'.
  do 3 apply remove_all_chars in Hin'.
  assert (Ht : existsb (Ascii.eqb "#") svg_content = true)
    by (apply existsb_exists; now exists h).
  congruence.
Qed.

Lemma pipeline_returns_without_hash_witness :
  exists out,
    add_dark_mode_attributes (Q "<rect fill='Black' width='50'/>") = Ok out.
Proof.
  apply (pipeline_returns_without_hash (Q "<rect fill='Black' width='50'/>")).
  reflexivity.
Defined.

(** ** Where the style block goes *)

Lemma not_in_existsb (c : ascii) (s : str) :
  existsb (Ascii.eqb c) s = false -> ~ In c s.
Proof.
  intros H Hin.
  assert (existsb (Ascii.eqb c) s = true)
    by (apply existsb_exists; exists c; split; [exact Hin|apply Ascii.eqb_refl]).
  congruence.
Qed.

Lemma find_char_absent (c : ascii) (s : str) :
  existsb (Ascii.eqb c) s = false -> find_char c s = (-1)%Z.
Proof.
  induction s as [|a s IH]; [reflexivity|].
  cbn [existsb find_char]. intro H. apply orb_false_iff in H.
  destruct H as [Ha Hs]. rewrite Ascii.eqb_sym, Ha, (IH Hs). reflexivity.
Qed.

Lemma find_char_first (c : ascii) (a b : str) :
  existsb (Ascii.eqb c) a = false ->
  find_char c (a ++ c :: b) = Z.of_nat (length a).
Proof.
  induction a as [|x a IH]; cbn [app existsb find_char length]; intro H.
  - now rewrite Ascii.eqb_refl.
  - apply orb_false_iff in H. destruct H as [Hx Ha].
    rewrite Ascii.eqb_sym, Hx, (IH Ha).
    destruct (Z.of_nat (length a) <? 0)%Z eqn:E; [apply Z.ltb_lt in E; lia|].
    lia.
Qed.

(** The style block is put right behind the first [>] of the rewritten
    text; when the text has no [>], [find] answers -1 and the block goes
    to the very front. *)
Theorem reinsert_place (p : str) (ps : list str) (a b : str) :
  existsb (Ascii.eqb ">") a = false ->
  reinsert (p :: ps) (a ++ ">" :: b)
  = a ++ ">" :: style_block (p :: ps) ++ b /\
  reinsert (p :: ps) a = style_block (p :: ps) ++ a.
Proof.
  intro H. unfold reinsert. split.
  - rewrite (find_char_first _ _ _ H).
    replace (Z.to_nat (Z.of_nat (length a) + 1)) with (length (a ++ [">"]))
      by (rewrite length_app; simpl; lia).
    replace (a ++ ">" :: b) with ((a ++ [">"]) ++ b)
      by (now rewrite <- app_assoc).
    rewrite firstn_app, Nat.sub_diag, firstn_all, skipn_app, Nat.sub_diag,
      skipn_all.
    cbn [firstn skipn app]. rewrite app_nil_r, <- app_assoc. reflexivity.
  - rewrite (find_char_absent _ _ H). reflexivity.
Qed.

Lemma reinsert_place_witness :
  reinsert [L ".a{}"] (L "<svg" ++ ">" :: L "<rect/></svg>")
  = L "<svg" ++ ">" :: style_block [L ".a{}"] ++ L "<rect/></svg>" /\
  reinsert [L ".a{}"] (L "<svg") = style_block [L ".a{}"] ++ L "<svg".
Proof.
  apply (reinsert_place (L ".a{}") [] (L "<svg") (L "<rect/></svg>")).
  reflexivity.
Defined.

(** ** Blocks and attributes that the scan removes *)

(** Before the first occurrence of the word that opens a pattern, a word
    whose first character it holds only once, the scan finds nothing. *)
Lemma scan_prefix (h : ascii) (t : str) (r : regex) (pre x : str) :
  ~ In h t ->
  contains pre (h :: t) = false ->
  scan (Seq (Text (h :: t)) r) 0 (pre ++ (h :: t) ++ x)
  = map inl pre ++ scan (Seq (Text (h :: t)) r) 0 ((h :: t) ++ x).
Proof.
  intro Hh. induction pre as [|c pre IH]; intro H; [reflexivity|].
  cbn [contains] in H. apply orb_false_iff in H. destruct H as [Hc Hp].
  change ((c :: pre) ++ (h :: t) ++ x) with (c :: (pre ++ (h :: t) ++ x)).
  cbn [map]. rewrite scan_miss; [now rewrite (IH Hp)|].
  apply match_at_needs_text.
  destruct (startswith (h :: t) (c :: pre ++ (h :: t) ++ x)) eqn:E;
    [|reflexivity].
  cbn [startswith] in E, Hc. apply andb_true_iff in E. destruct E as [E1 E2].
  rewrite E1 in Hc. cbn [andb] in Hc.
  apply (startswith_before t pre (t ++ x) h Hh) in E2. congruence.
Qed.

Lemma split_at_front (t s : str) :
  startswith t s = true -> split_at t s = Some ([], skipn (length t) s).
Proof. intro H. destruct s; cbn [split_at]; now rewrite H. Qed.

Lemma split_at_inner (t inner post : str) (h : ascii) (t' : str) :
  t = h :: t' ->
  existsb (Ascii.eqb h) inner = false ->
  split_at t (inner ++ t ++ post) = Some (inner, post).
Proof.
  intros -> H. induction inner as [|c inner IH].
  - change ([] ++ (h :: t') ++ post) with ((h :: t') ++ post).
    rewrite split_at_front by apply startswith_app.
    now rewrite skipn_app, skipn_all, Nat.sub_diag.
  - cbn [existsb] in H. apply orb_false_iff in H. destruct H as [Hc Hi].
    change ((c :: inner) ++ (h :: t') ++ post)
      with (c :: (inner ++ (h :: t') ++ post)).
    cbn [split_at startswith]. rewrite Hc. cbn [andb].
    now rewrite (IH Hi).
Qed.

Lemma findall_pieces (r : regex) (pre : str) (m : re_match)
    (pieces : list (ascii + re_match)) :
  flat_map (fun p => match p with inl _ => [] | inr m => [group1 m] end)
           (map inl pre ++ inr m :: pieces)
  = group1 m
      :: flat_map (fun p => match p with inl _ => [] | inr m => [group1 m] end)
                  pieces.
Proof. induction pre as [|c pre IH]; [reflexivity|exact IH]. Qed.

Lemma remove_pieces (pre : str) (m : re_match)
    (pieces : list (ascii + re_match)) :
  flat_map (fun p => match p with inl c => [c] | inr _ => [] end)
           (map inl pre ++ inr m :: pieces)
  = pre ++ flat_map (fun p => match p with inl c => [c] | inr _ => [] end)
                    pieces.
Proof.
  induction pre as [|c pre IH]; [reflexivity|]. cbn [map app flat_map].
  now rewrite IH.
Qed.

Lemma scan_style_block (pre inner post : str) :
  contains pre (L "<style>") = false ->
  existsb (Ascii.eqb "<") inner = false ->
  scan style_pattern 0 (pre ++ L "<style>" ++ inner ++ L "</style>" ++ post)
  = map inl pre
      ++ inr {| group0 := L "<style>" ++ inner ++ L "</style>";
                group1 := inner |}
      :: scan style_pattern 0 post.
Proof.
  intros Hpre Hinner. unfold style_pattern.
  change (L "<style>") with ("<" :: L "style>") at 1 3 4.
  rewrite scan_prefix.
  - f_equal. fold (L "<style>"). change ("<" :: L "style>") with (L "<style>").
    fold style_pattern.
    apply (scan_hit style_pattern _ post).
    + rewrite match_at_style. unfold style_match. rewrite startswith_app.
      change (skipn 7 (L "<style>" ++ inner ++ L "</style>" ++ post))
        with (inner ++ L "</style>" ++ post).
      now rewrite (split_at_inner (L "</style>") inner post "<" (L "/style>")).
    + cbn [group0]. now rewrite <- !app_assoc.
    + discriminate.
  - cbn [L list_ascii_of_string In].
    intros [H|[H|[H|[H|[H|[H|[]]]]]]]; discriminate H.
  - exact Hpre.
Qed.

(** A style block whose text holds no [<] and which is the first in the
    document is found with exactly its inner text and cut out whole; the
    text before it stays, the scan goes on behind it, and the inner text
    is kept for reinsertion when no keyword occurs in it. *)
Theorem style_block_taken (pre inner post : str) :
  contains pre (L "<style>") = false ->
  existsb (Ascii.eqb "<") inner = false ->
  let doc := pre ++ L "<style>" ++ inner ++ L "</style>" ++ post in
  findall style_pattern doc = inner :: findall style_pattern post /\
  remove_all style_pattern doc = pre ++ remove_all style_pattern post /\
  preserved doc
  = (if disqualified inner then [] else [inner]) ++ preserved post.
Proof.
  intros Hpre Hinner doc.
  assert (Hf : findall style_pattern doc = inner :: findall style_pattern post).
  { unfold findall, doc. rewrite (scan_style_block _ _ _ Hpre Hinner).
    now rewrite (findall_pieces style_pattern). }
  split; [exact Hf|]. split.
  - unfold remove_all, doc. rewrite (scan_style_block _ _ _ Hpre Hinner).
    apply remove_pieces.
  - unfold preserved. rewrite Hf. cbn [filter].
    now destruct (disqualified inner).
Qed.

Lemma style_block_taken_witness :
  let doc := L "<svg>" ++ L "<style>" ++ L ".a{color:blue}" ++ L "</style>"
               ++ L "<rect/></svg>" in
  findall style_pattern doc
  = L ".a{color:blue}" :: findall style_pattern (L "<rect/></svg>") /\
  remove_all style_pattern doc
  = L "<svg>" ++ remove_all style_pattern (L "<rect/></svg>") /\
  preserved doc
  = (if disqualified (L ".a{color:blue}") then [] else [L ".a{color:blue}"])
      ++ preserved (L "<rect/></svg>").
Proof.
  apply (style_block_taken (L "<svg>") (L ".a{color:blue}") (L "<rect/></svg>"));
    reflexivity.
Defined.

Lemma scan_attribute (name : str) (h : ascii) (t pre v post : str) :
  name ++ ["="; dquote] = h :: t ->
  ~ In h t ->
  contains pre (name ++ ["="; dquote]) = false ->
  forallb not_quote v = true ->
  scan (attr_pattern name) 0 (pre ++ attribute name v ++ post)
  = map inl pre
      ++ inr {| group0 := attribute name v; group1 := [] |}
      :: scan (attr_pattern name) 0 post.
Proof.
  intros Hname Hh Hpre Hv.
  assert (Ha : attribute name v ++ post
               = (name ++ ["="; dquote]) ++ v ++ dquote :: post)
    by (unfold attribute; repeat (rewrite <- app_assoc; cbn [app]);
        reflexivity).
  assert (Hg : attribute name v = (name ++ ["="; dquote]) ++ v ++ [dquote])
    by (unfold attribute; repeat (rewrite <- app_assoc; cbn [app]);
        reflexivity).
  rewrite Ha.
  pose proof (scan_prefix h t (Seq (Many true not_quote) (Text [dquote]))
                pre (v ++ dquote :: post) Hh) as P.
  rewrite <- Hname in P. fold (attr_pattern name) in P.
  rewrite (P Hpre). f_equal.
  apply (scan_hit (attr_pattern name) _ post).
  - rewrite match_at_attr. unfold attr_match. rewrite startswith_app.
    rewrite skipn_app, skipn_all, Nat.sub_diag. cbn [skipn app].
    rewrite (split_at_value _ _ Hv). now rewrite Hg.
  - cbn [group0]. rewrite Hg.
    repeat (rewrite <- app_assoc; cbn [app]). reflexivity.
  - cbn [group0]. rewrite Hg, Hname. discriminate.
Qed.

(** The strip step cuts a first [fill-dark] or [fill-light] attribute out
    from its name to its closing quote and nothing more: the text before
    it, the space that separated it included, stays. *)
Theorem companion_stripped (pre v post : str) :
  forallb not_quote v = true ->
  (contains pre (L "fill-dark=" ++ [dquote]) = false ->
   remove_all fill_dark_pattern (pre ++ attribute (L "fill-dark") v ++ post)
   = pre ++ remove_all fill_dark_pattern post) /\
  (contains pre (L "fill-light=" ++ [dquote]) = false ->
   remove_all fill_light_pattern (pre ++ attribute (L "fill-light") v ++ post)
   = pre ++ remove_all fill_light_pattern post).
Proof.
  intro Hv. split; intro Hpre.
  - unfold remove_all, fill_dark_pattern.
    rewrite (scan_attribute (L "fill-dark") "f" (L "ill-dark=" ++ [dquote])
               pre v post eq_refl); try assumption.
    + apply remove_pieces.
    + cbn [L list_ascii_of_string In app].
      intros [H|[H|[H|[H|[H|[H|[H|[H|[H|[H|[]]]]]]]]]]]; discriminate H.
  - unfold remove_all, fill_light_pattern.
    rewrite (scan_attribute (L "fill-light") "f" (L "ill-light=" ++ [dquote])
               pre v post eq_refl); try assumption.
    + apply remove_pieces.
    + cbn [L list_ascii_of_string In app].
      intros [H|[H|[H|[H|[H|[H|[H|[H|[H|[H|[H|[]]]]]]]]]]]]; discriminate H.
Qed.

Lemma companion_stripped_witness :
  remove_all fill_dark_pattern
    (Q "<a fill='red' " ++ attribute (L "fill-dark") (L "red") ++ L "/>")
  = Q "<a fill='red' " ++ remove_all fill_dark_pattern (L "/>") /\
  remove_all fill_light_pattern
    (Q "<a fill='red' " ++ attribute (L "fill-light") (L "red") ++ L "/>")
  = Q "<a fill='red' " ++ remove_all fill_light_pattern (L "/>").
Proof.
  split.
  - apply (proj1 (companion_stripped (Q "<a fill='red' ") (L "red") (L "/>")
                    eq_refl)).
    reflexivity.
  - apply (proj2 (companion_stripped (Q "<a fill='red' ") (L "red") (L "/>")
                    eq_refl)).
    reflexivity.
Defined.

(** ** The driver: what is written and when it stops *)

Lemma written_app (l1 l2 : log) : written (l1 ++ l2) = written l1 ++ written l2.
Proof. unfold written. apply flat_map_app. Qed.

Lemma written_by_file (w : world) (filename : str) (l : log) :
  match snd (process_svg_file w filename l) with
  | Ok _ =>
      exists svg out,
        read_text w filename = Ok svg /\
        add_dark_mode_attributes svg = Ok out /\
        written (fst (process_svg_file w filename l))
        = written l ++ [(filename, out)]
  | Raise _ => written (fst (process_svg_file w filename l)) = written l
  end.
Proof.
  unfold process_svg_file.
  destruct (read_text w filename) as [svg|e] eqn:Er; cbn [fst snd].
  - destruct (add_dark_mode_attributes svg) as [out|e] eqn:Ea; cbn [fst snd].
    + destruct (write_text w filename out) as [u|e]; cbn [fst snd].
      * exists svg, out. repeat split; try assumption.
        rewrite !written_app. cbn. now rewrite !app_nil_r.
      * rewrite written_app. cbn. now rewrite app_nil_r.
    + rewrite written_app. cbn. now rewrite app_nil_r.
  - rewrite written_app. cbn. now rewrite app_nil_r.
Qed.

Lemma batch_app (w : world) (a b : list str) (l : log)
    (errors : list (str * exn)) :
  batch w (a ++ b) l errors
  = match batch w a l errors with
    | (l1, Ok collected) => batch w b l1 collected
    | (l1, Raise e) => (l1, Raise e)
    end.
Proof.
  revert l errors. induction a as [|f a IH]; intros l errors; [reflexivity|].
  cbn [app batch]. destruct (endswith (L ".svg") f); [|apply IH].
  destruct (process_svg_file w f l) as [l1 [u|e]]; [apply IH|].
  destruct (caught e); [apply IH|reflexivity].
Qed.

Lemma firstn_subset (k : nat) (f : str) (fs : list str) :
  In f (firstn k fs) -> In f fs.
Proof.
  revert k. induction fs as [|g fs IH]; intros [|k] H; try contradiction.
  destruct H as [H|H]; [now left|right; eauto].
Qed.

Lemma batch_prefix (w : world) (names : list str) (l : log)
    (errors : list (str * exn)) :
  exists k,
    attempted (fst (batch w names l errors))
    = attempted l ++ firstn k (svg_files names).
Proof.
  revert l errors. induction names as [|f names IH]; intros l errors.
  - exists 0. cbn. now rewrite app_nil_r.
  - unfold svg_files in *. cbn [batch filter].
    destruct (endswith (L ".svg") f); [|apply IH].
    destruct (process_svg_file_spec w f l) as [Hlog _].
    destruct (process_svg_file w f l) as [l1 r]. cbn [fst] in Hlog.
    assert (Hgo : forall es, exists k,
               attempted (fst (batch w names l1 es))
               = attempted l ++ firstn k (f :: filter (endswith (L ".svg")) names)).
    { intro es. destruct (IH l1 es) as [k Hk]. exists (S k).
      rewrite Hk, Hlog, <- app_assoc. reflexivity. }
    destruct r as [u|e]; [apply Hgo|].
    destruct (caught e); [apply Hgo|].
    exists 1. cbn [fst firstn]. exact Hlog.
Qed.

(** [process_folder] takes the files in the order of the listing, each at
    most once, and never one whose name does not end in [.svg]: the files
    it has attempted are always a front part of the [.svg] names. *)
Theorem attempted_in_order (w : world) (l : log) (names : list str) :
  listdir w = Ok names ->
  exists k,
    attempted (fst (process_folder w l))
    = attempted l ++ firstn k (svg_files names) /\
    forallb (endswith (L ".svg")) (firstn k (svg_files names)) = true.
Proof.
  intro Hl.
  assert (Hsvg : forall k, forallb (endswith (L ".svg"))
                             (firstn k (svg_files names)) = true).
  { intro k. apply forallb_forall. intros f Hf.
    apply firstn_subset in Hf.
    unfold svg_files in Hf. now apply filter_In in Hf. }
  unfold process_folder.
  destruct (isdir w); cbn [negb];
    [|exists 0; split; [cbn; now rewrite app_nil_r|apply Hsvg]].
  destruct (makedirs w);
    [|exists 0; split; [cbn; now rewrite app_nil_r|apply Hsvg]].
  rewrite Hl. destruct (batch_prefix w names l []) as [k Hk].
  exists k. split; [|apply Hsvg].
  destruct (batch w names l []) as [l1 [[|c es]|e]]; exact Hk.
Qed.

Lemma attempted_in_order_witness :
  exists k,
    attempted (fst (process_folder sample_world []))
    = [] ++ firstn k (svg_files [L "a.svg"; L "b.svg"; L "notes.txt"; L "c.svg"])
    /\ forallb (endswith (L ".svg"))
         (firstn k (svg_files [L "a.svg"; L "b.svg"; L "notes.txt"; L "c.svg"]))
       = true.
Proof.
  apply (attempted_in_order sample_world []
           [L "a.svg"; L "b.svg"; L "notes.txt"; L "c.svg"]).
  reflexivity.
Defined.

Lemma svg_files_app (a b : list str) :
  svg_files (a ++ b) = svg_files a ++ svg_files b.
Proof. unfold svg_files. apply filter_app. Qed.

(** A failure of another class than the two that the loop catches, such
    as the [ValueError] of a malformed colour, leaves the loop at once:
    the files after it are not attempted, the errors collected so far are
    dropped and [process_folder] raises that exception, not the count. *)
Theorem uncaught_ends_batch (w : world) (l : log) (before after : list str)
    (f : str) (e : exn) :
  isdir w = true ->
  makedirs w = Ok tt ->
  listdir w = Ok (before ++ f :: after) ->
  only_caught w before ->
  endswith (L ".svg") f = true ->
  outcome w f = Raise e ->
  caught e = false ->
  snd (process_folder w l) = Raise e /\
  attempted (fst (process_folder w l))
  = attempted l ++ svg_files before ++ [f].
Proof.
  intros Hd Hm Hl Hall Hsvg Hout Hc. unfold process_folder.
  rewrite Hd, Hm, Hl. cbn [negb]. rewrite batch_app.
  destruct (batch_complete w before Hall l []) as (collected & Hb & Ha & _).
  rewrite Hb. cbn [batch]. rewrite Hsvg.
  destruct (process_svg_file_spec w f (fst (batch w before l []))) as [Hlog Hr].
  destruct (process_svg_file w f (fst (batch w before l []))) as [l1 r].
  cbn [fst snd] in Hlog, Hr. subst r. rewrite Hout, Hc. cbn [fst snd].
  split; [reflexivity|]. now rewrite Hlog, Ha, <- app_assoc.
Qed.

Lemma uncaught_ends_batch_witness :
  snd (process_folder broken_world []) = Raise invalid_literal /\
  attempted (fst (process_folder broken_world []))
  = [] ++ svg_files [L "a.svg"] ++ [L "b.svg"].
Proof.
  apply (uncaught_ends_batch broken_world [] [L "a.svg"] [L "c.svg"]
           (L "b.svg") invalid_literal); try reflexivity.
  intros f e Hf He. vm_compute in Hf. destruct Hf as [<-|[]].
  vm_compute in He. discriminate He.
Defined.

Lemma batch_written (w : world) (names : list str) :
  only_caught w names ->
  forall l errors,
    map fst (written (fst (batch w names l errors)))
    = map fst (written l) ++ successes w names.
Proof.
  induction names as [|f names IH]; intros Hall l errors.
  - cbn. now rewrite app_nil_r.
  - specialize (IH (only_caught_tail _ _ _ Hall)).
    unfold successes, svg_files in *. cbn [batch filter].
    destruct (endswith (L ".svg") f) eqn:Esvg; [|apply IH].
    pose proof (written_by_file w f l) as Hw.
    destruct (process_svg_file_spec w f l) as [_ Hr].
    destruct (process_svg_file w f l) as [l1 r]. cbn [fst snd] in Hw, Hr.
    subst r. cbn [filter].
    destruct (outcome w f) as [u|e] eqn:Eout; cbn [is_ok].
    + destruct Hw as (svg & out & _ & _ & Hw).
      rewrite IH, Hw, map_app, <- app_assoc. reflexivity.
    + rewrite (Hall f e);
        [|unfold svg_files; cbn [filter]; rewrite Esvg; now left|exact Eout].
      now rewrite IH, Hw.
Qed.

Lemma filter_all (p : str -> bool) (fs : list str) :
  filter (fun f => negb (p f)) fs = [] -> filter p fs = fs.
Proof.
  induction fs as [|f fs IH]; [reflexivity|]. cbn [filter].
  destruct (p f); cbn [negb]; [|discriminate].
  intro H. f_equal. now apply IH.
Qed.

(** When every failure is of a caught class, the destination files are
    exactly the [.svg] files that did not fail, in the order of the
    listing: with no failure, one output per [.svg] file and none for any
    other name. *)
Theorem written_files (w : world) (l : log) (names : list str) :
  isdir w = true ->
  makedirs w = Ok tt ->
  listdir w = Ok names ->
  only_caught w names ->
  map fst (written (fst (process_folder w l)))
  = map fst (written l) ++ successes w names /\
  (failures w names = [] ->
   map fst (written (fst (process_folder w l)))
   = map fst (written l) ++ svg_files names).
Proof.
  intros Hd Hm Hl Hall.
  assert (Hmain : map fst (written (fst (process_folder w l)))
                  = map fst (written l) ++ successes w names).
  { unfold process_folder. rewrite Hd, Hm, Hl. cbn [negb].
    pose proof (batch_written w names Hall l []) as Hb.
    destruct (batch w names l []) as [l1 [[|c es]|e]]; exact Hb. }
  split; [exact Hmain|]. intro Hnone. rewrite Hmain. f_equal.
  unfold successes, failures in *. now apply filter_all.
Qed.

Lemma written_files_witness :
  map fst (written (fst (process_folder sample_world [])))
  = map fst (written [])
      ++ successes sample_world
           [L "a.svg"; L "b.svg"; L "notes.txt"; L "c.svg"] /\
  (failures sample_world [L "a.svg"; L "b.svg"; L "notes.txt"; L "c.svg"] = [] ->
   map fst (written (fst (process_folder sample_world [])))
   = map fst (written [])
       ++ svg_files [L "a.svg"; L "b.svg"; L "notes.txt"; L "c.svg"]).
Proof.
  apply (written_files sample_world []
           [L "a.svg"; L "b.svg"; L "notes.txt"; L "c.svg"]);
    try reflexivity.
  intros f e Hf He. vm_compute in Hf.
  destruct Hf as [<-|[<-|[<-|[]]]]; vm_compute in He;
    try discriminate He.
  injection He as <-. reflexivity.
Defined.

Lemma batch_grows (w : world) (names : list str) (l : log)
    (errors collected : list (str * exn)) :
  snd (batch w names l errors) = Ok collected ->
  length errors <= length collected.
Proof.
  revert l errors. induction names as [|f names IH]; intros l errors H.
  - cbn in H. injection H as <-. lia.
  - cbn [batch] in H. destruct (endswith (L ".svg") f); [|eauto].
    destruct (process_svg_file w f l) as [l1 [u|e]]; [eauto|].
    destruct (caught e); [|discriminate].
    apply IH in H. rewrite length_app in H. cbn [length] in H. lia.
Qed.

Lemma batch_clean (w : world) (names : list str) (l : log)
    (errors collected : list (str * exn)) :
  snd (batch w names l errors) = Ok collected ->
  length collected = length errors ->
  forall f, In f (svg_files names) -> outcome w f = Ok tt.
Proof.
  revert l errors. induction names as [|f names IH]; intros l errors H Hlen g Hg;
    [contradiction|].
  unfold svg_files in Hg. cbn [batch filter] in H, Hg.
  destruct (endswith (L ".svg") f); [|eauto].
  destruct (process_svg_file_spec w f l) as [_ Hr].
  destruct (process_svg_file w f l) as [l1 r]. cbn [snd] in Hr. subst r.
  destruct (outcome w f) as [[]|e] eqn:Eout.
  - destruct Hg as [<-|Hg]; [exact Eout|eauto].
  - destruct (caught e); [|discriminate].
    apply batch_grows in H. rewrite length_app in H. cbn [length] in H. lia.
Qed.

(** With a wrong number of arguments [main] prints the usage line and
    exits with status 1 before it looks at any folder.  With two
    arguments, on a directory that can be listed, it exits with status 0
    exactly when every [.svg] file was rewritten and written; any failure
    gives status 1. *)
Theorem main_status (argv : list str) (w : world) (l : log)
    (names : list str) :
  (length argv <> 3 -> main argv w l = (l, Usage, 1)) /\
  (length argv = 3 ->
   isdir w = true -> makedirs w = Ok tt -> listdir w = Ok names ->
   (snd (main argv w l) = 0 <->
    forall f, In f (svg_files names) -> outcome w f = Ok tt) /\
   (snd (main argv w l) = 0 \/ snd (main argv w l) = 1)).
Proof.
  split.
  - intro H. unfold main. apply Nat.eqb_neq in H. now rewrite H.
  - intros Hargs Hd Hm Hl. unfold main, process_folder.
    rewrite Hargs, Hd, Hm, Hl. cbn [Nat.eqb negb].
    destruct (batch w names l []) as [l1 r] eqn:Eb.
    assert (Hr : snd (batch w names l []) = r) by now rewrite Eb.
    split.
    + split.
      * intro H0. destruct r as [[|c es]|e]; cbn [snd] in H0; try discriminate.
        now apply (batch_clean w names l [] [] Hr).
      * intro Hall.
        assert (Hc : only_caught w names).
        { intros f e Hf He. rewrite (Hall f Hf) in He. discriminate. }
        destruct (batch_complete w names Hc l []) as (collected & Hb & _ & Hlen).
        rewrite Hb in Hr. cbn [snd] in Hr. subst r.
        assert (Hnone : failures w names = []).
        { unfold failures. induction (svg_files names) as [|f fs IH];
            [reflexivity|].
          cbn [filter]. rewrite (Hall f) by now left. cbn [is_ok negb].
          apply IH. intros g Hg. apply Hall. now right. }
        rewrite Hnone in Hlen. cbn in Hlen.
        destruct collected; [reflexivity|discriminate].
    + destruct r as [[|c es]|e]; cbn [snd]; auto.
Qed.

Lemma main_status_witness :
  (snd (main [L "svg_dark_mode.py"; L "in"; L "out"] sample_world []) = 0 <->
   forall f, In f (svg_files [L "a.svg"; L "b.svg"; L "notes.txt"; L "c.svg"]) ->
             outcome sample_world f = Ok tt) /\
  (snd (main [L "svg_dark_mode.py"; L "in"; L "out"] sample_world []) = 0 \/
   snd (main [L "svg_dark_mode.py"; L "in"; L "out"] sample_world []) = 1).
Proof.
  apply (proj2 (main_status [L "svg_dark_mode.py"; L "in"; L "out"]
                  sample_world []
                  [L "a.svg"; L "b.svg"; L "notes.txt"; L "c.svg"]));
    reflexivity.
Defined.

(** ** The rewriter only inserts *)

Lemma subseq_refl (a : str) : subseq a a.
Proof. induction a; constructor; assumption. Qed.

Lemma subseq_app (a1 b1 a2 b2 : str) :
  subseq a1 b1 -> subseq a2 b2 -> subseq (a1 ++ a2) (b1 ++ b2).
Proof. intros H1 H2. induction H1; cbn [app]; try constructor; assumption. Qed.

Lemma subseq_extend (a x : str) : subseq a (a ++ x).
Proof.
  rewrite <- (app_nil_r a) at 1. apply subseq_app; [apply subseq_refl|].
  induction x; constructor; assumption.
Qed.

Lemma subseq_length (a b : str) : subseq a b -> length a <= length b.
Proof. intro H. induction H; cbn [length]; lia. Qed.

Lemma match_at_group0 (r : regex) (s rest : str) (m : re_match) :
  match_at r s = Some (m, rest) ->
  group0 m = firstn (length (group0 m)) s.
Proof.
  unfold match_at.
  destruct (run r _ s None (fun s' g => Some (g, s'))) as [[g s']|];
    [|discriminate].
  intros [= <- <-]. cbn [group0].
  rewrite length_firstn.
  destruct (Nat.le_ge_cases (length s - length s') (length s)) as [H|H].
  - now rewrite Nat.min_l.
  - rewrite Nat.min_r by exact H.
    now rewrite firstn_all, firstn_all2 by exact H.
Qed.

(** The pieces of a scan, put together again, are the text. *)
Lemma scan_source (r : regex) (s : str) (skip : nat) :
  source (scan r skip s) = skipn skip s.
Proof.
  revert skip. induction s as [|c s IH]; intro skip.
  - now destruct skip.
  - cbn [scan]. destruct skip as [|n]; [|apply IH].
    cbn [skipn].
    destruct (match_at r (c :: s)) as [[m rest]|] eqn:E.
    + destruct (length (group0 m)) as [|n] eqn:El.
      * unfold source in *. cbn [flat_map app]. now rewrite IH.
      * unfold source in *. cbn [flat_map]. rewrite IH.
        rewrite (match_at_group0 _ _ _ _ E), El at 1.
        apply (firstn_skipn (S n) (c :: s)).
    + unfold source in *. cbn [flat_map app]. now rewrite IH.
Qed.

Lemma fill_match_shape (t rest : str) (m : re_match) :
  match_at fill_pattern t = Some (m, rest) ->
  group0 m = attribute (L "fill") (group1 m).
Proof.
  rewrite match_at_fill. unfold fill_match.
  destruct (startswith fill_open t); [|discriminate].
  destruct (split_at [dquote] (skipn 6 t)) as [[v after]|]; [|discriminate].
  destruct (companion after); [discriminate|].
  intros [= <- <-]. reflexivity.
Qed.

Lemma sub_pieces_inserts (pieces : list (ascii + re_match)) (out : str) :
  (forall m, In (inr m) pieces -> group0 m = attribute (L "fill") (group1 m)) ->
  sub_pieces replace_fill pieces = Ok out ->
  subseq (source pieces) out.
Proof.
  revert out. induction pieces as [|[c|m] pieces IH]; intros out Hm H;
    cbn [sub_pieces] in H.
  - injection H as <-. constructor.
  - destruct (sub_pieces replace_fill pieces) as [tail|e]; [|discriminate].
    cbn [bind] in H. injection H as <-.
    unfold source. cbn [flat_map app]. constructor.
    apply IH; [|reflexivity]. intros m Hin. apply Hm. now right.
  - rewrite replace_fill_attribute in H.
    destruct (invert_color (group1 m)) as [d|e]; [|discriminate].
    cbn [bind] in H.
    destruct (sub_pieces replace_fill pieces) as [tail|e]; [|discriminate].
    cbn [bind] in H.
    assert (Ho : out = attribute (L "fill") (group1 m)
                         ++ (L " " ++ attribute (L "fill-dark") d) ++ tail)
      by (rewrite app_assoc; congruence).
    rewrite Ho. clear H Ho.
    unfold source. cbn [flat_map]. rewrite (Hm m) by now left.
    apply subseq_app; [apply subseq_refl|].
    fold (source pieces).
    change (source pieces) with ([] ++ source pieces).
    apply subseq_app.
    + induction (L " " ++ attribute (L "fill-dark") d); constructor; assumption.
    + apply IH; [|reflexivity]. intros m' Hin. apply Hm. now right.
Qed.

(** The fill rewriter only inserts text: whatever it returns still holds
    every character of its input, in order, so nothing of the document is
    changed or lost in this step. *)
Theorem rewrite_only_inserts (content out : str) :
  rewrite_fills content = Ok out ->
  subseq content out /\ length content <= length out.
Proof.
  intro H.
  assert (Hs : subseq content out).
  { rewrite <- (scan_source fill_pattern content 0) at 1.
    apply sub_pieces_inserts; [|exact H].
    intros m Hin.
    destruct (scan_match_origin _ _ _ _ Hin) as (pre & t & rest & _ & Hm).
    now apply fill_match_shape in Hm. }
  split; [exact Hs|now apply subseq_length].
Qed.

Lemma rewrite_only_inserts_witness :
  subseq (Q "<path fill='#000000'/>")
         (Q "<path fill='#000000' fill-dark='#ffffff'/>") /\
  length (Q "<path fill='#000000'/>")
  <= length (Q "<path fill='#000000' fill-dark='#ffffff'/>").
Proof.
  apply (rewrite_only_inserts (Q "<path fill='#000000'/>")
           (Q "<path fill='#000000' fill-dark='#ffffff'/>")).
  vm_compute. reflexivity.
Defined.

(** ** The style elements of the output *)
















Example style_elements_sample :
  add_dark_mode_attributes
    (Q "<svg><style>.a{}</style><style>.b{fill:red}</style><style>.c{}</style><rect fill='black'/></svg>")
  = Ok (Q "<svg><style>.a{} .c{}</style><rect fill='black' fill-dark='white'/></svg>").
Proof. vm_compute. reflexivity. Qed.

(** ** A directory with a malformed colour *)

(** C8: the first file fails to decode and is collected, the second holds
    the colour [#FFF] and raises the [ValueError] of [int], which the
    loop does not catch: the third file is never attempted and
    [process_folder] raises that error instead of the count of
    failures. *)
Lemma mixed_directory_stops :
  outcome mixed_world (L "b.svg") = Raise UnicodeDecodeError /\
  svg_files [L "b.svg"; L "m.svg"; L "c.svg"]
  = [L "b.svg"; L "m.svg"; L "c.svg"] /\
  process_folder mixed_world []
  = ([Started (L "b.svg"); Started (L "m.svg")], Raise invalid_literal) /\
  attempted (fst (process_folder mixed_world [])) = [L "b.svg"; L "m.svg"] /\
  snd (process_folder mixed_world [])
  <> Raise (ValueError "Failed to process 1 files").
Proof.
  repeat split; try (vm_compute; reflexivity).
  vm_compute. discriminate.
Qed.
